(** * OptionGreeksToolbox: Black-Scholes pricing and finite-difference Greeks

    A shallow embedding of [OptionGreeksToolbox.py] over the real numbers.

    - Python floats are modelled as reals, so rounding and overflow are out
      of the picture: [0.001] is the real 1/1000 and [1/252] the real 1/252.
    - Inside a pricer numpy computes on IEEE values: [float64] has the
      finite numbers, the negative zero, the two infinities and [nan].
      [np.log 0] is [-inf], a numpy division by a zero is an infinity with
      the sign of the quotient (or [nan] for [0 / 0]), [np.sqrt] of a
      negative number is [nan], and [norm.cdf] is 1 at [inf] and 0 at
      [-inf]; none of these raises.  A price, and a Greek, is a finite number
      or [nan]: [npfloat].  Overflow is out of the picture, so is the
      [OverflowError] Python raises on it.
    - Methods run in a small monad that threads the object ([self]), can
      raise a Python exception and records every pricer invocation with the
      effective inputs it resolved.
    - [norm.cdf] and [scipy.optimize.newton] are library collaborators: the
      methods take them as parameters.  The standard normal distribution
      function is built from the Riemann integral of the Gaussian kernel
      and shown symmetric, differentiable and non-negative. *)

From Stdlib Require Import Reals Lra String List.
Import ListNotations.
Open Scope R_scope.

(** ** Data model *)

(** The attributes set by [__init__]. *)
Module Attrs.
Record t : Type := Build { S : R; K : R; T : R; sigma : R; r : R }.
End Attrs.
Abbreviation OptionGreeksToolbox := Attrs.t.

Definition __init__ (spot_price strike_price maturity volatility interest_rate : R)
  : OptionGreeksToolbox :=
  {| Attrs.S := spot_price;
     Attrs.K := strike_price;
     Attrs.T := maturity;
     Attrs.sigma := volatility;
     Attrs.r := interest_rate |}.

(** A price or a Greek as numpy holds it: a finite number, or [None] for
    [nan].  The sign of a zero is not kept here: nothing divides by a price. *)
Definition npfloat : Type := option R.

(** A numpy value on the way to [norm.cdf]: a finite number ([Fin 0] is
    the positive zero), the negative zero, an infinity or [nan]. *)
Inductive float64 : Type :=
| Fin (x : R)
| NegZero
| PosInf
| NegInf
| NaN.

(** What a Python function hands back to [newton]: a float, or Python's
    [None] when the function falls off its end. *)
Inductive pyval : Type :=
| PyFloat (x : npfloat)
| PyNone.

Inductive exn : Type :=
| ValueError (msg : string)
| ZeroDivisionError
| TypeError
| RuntimeError.

Inductive outcome (A : Type) : Type :=
| Return (a : A)
| Raise (e : exn).
Arguments Return {A} a.
Arguments Raise {A} e.

(** One invocation of a pricer, with the inputs it resolved from its
    overrides and the stored attributes. *)
Inductive pricer : Type := CallPricer | PutPricer.

Record invocation : Type :=
  Invoke { inv_pricer : pricer; inv_S : R; inv_T : R; inv_sigma : R }.

(** ** The method monad *)

Record run (A : Type) : Type :=
  Ran { result : outcome A; self_after : OptionGreeksToolbox; calls : list invocation }.
Arguments Ran {A} result self_after calls.
Arguments result {A} _.
Arguments self_after {A} _.
Arguments calls {A} _.

Definition M (A : Type) : Type := OptionGreeksToolbox -> run A.

Definition ret {A : Type} (a : A) : M A := fun self => Ran (Return a) self [].

Definition raise {A : Type} (e : exn) : M A := fun self => Ran (Raise e) self [].

Definition bind {A B : Type} (m : M A) (k : A -> M B) : M B :=
  fun self =>
    match m self with
    | Ran (Return a) self' tr =>
        match k a self' with
        | Ran o self'' tr' => Ran o self'' (tr ++ tr')
        end
    | Ran (Raise e) self' tr => Ran (Raise e) self' tr
    end.

Definition get_self : M OptionGreeksToolbox := fun self => Ran (Return self) self [].

Definition record_call (i : invocation) : M unit := fun self => Ran (Return tt) self [i].

Notation "x <- m ;; k" := (bind m (fun x => k))
  (at level 61, m at next level, right associativity).
Notation "m ;;; k" := (bind m (fun _ => k))
  (at level 61, right associativity).

(** ** Arithmetic that can leave the finite numbers *)

(** Python's [/] on floats raises on a zero divisor. *)
Definition py_div (x y : R) : M R :=
  if Req_dec_T y 0 then raise ZeroDivisionError else ret (x / y).

(** The sign bit, and the test for a zero. *)
Definition np_signbit (a : float64) : bool :=
  match a with
  | Fin x => if Rlt_dec x 0 then true else false
  | NegZero => true
  | PosInf => false
  | NegInf => true
  | NaN => false
  end.

Definition np_is_zero (a : float64) : bool :=
  match a with
  | Fin x => if Req_dec_T x 0 then true else false
  | NegZero => true
  | _ => false
  end.

Definition np_inf (negative : bool) : float64 := if negative then NegInf else PosInf.
Definition np_zero (negative : bool) : float64 := if negative then NegZero else Fin 0.

(** [np.log] of a Python float: [-inf] at zero, [nan] below. *)
Definition np_log (x : R) : float64 :=
  if Rlt_dec 0 x then Fin (ln x)
  else if Req_dec_T x 0 then NegInf
  else NaN.

(** [np.sqrt] of a Python float: [nan] below zero. *)
Definition np_sqrt (x : R) : float64 :=
  if Rle_dec 0 x then Fin (sqrt x) else NaN.

(** A numpy value plus a Python float. *)
Definition np_add_py (a : float64) (b : R) : float64 :=
  match a with
  | Fin x => Fin (x + b)
  | NegZero => Fin b
  | PosInf => PosInf
  | NegInf => NegInf
  | NaN => NaN
  end.

(** A Python float times a numpy value; a zero product has the sign of
    the product of the signs. *)
Definition np_mul_py (a : R) (b : float64) : float64 :=
  match b with
  | Fin y =>
      if Req_dec_T (a * y) 0 then
        if Rlt_dec a 0 then NegZero
        else if Rlt_dec y 0 then NegZero
        else Fin 0
      else Fin (a * y)
  | NegZero => if Rlt_dec a 0 then Fin 0 else NegZero
  | PosInf => if Rlt_dec 0 a then PosInf else if Rlt_dec a 0 then NegInf else NaN
  | NegInf => if Rlt_dec 0 a then NegInf else if Rlt_dec a 0 then PosInf else NaN
  | NaN => NaN
  end.

(** numpy's division: no exception on a zero divisor. *)
Definition np_div (a b : float64) : float64 :=
  let negative := xorb (np_signbit a) (np_signbit b) in
  match a, b with
  | NaN, _ => NaN
  | _, NaN => NaN
  | (PosInf | NegInf), (PosInf | NegInf) => NaN
  | (PosInf | NegInf), _ => np_inf negative
  | _, (PosInf | NegInf) => np_zero negative
  | _, _ =>
      if np_is_zero b then
        if np_is_zero a then NaN else np_inf negative
      else if np_is_zero a then np_zero negative
      else
        match a, b with
        | Fin x, Fin y => Fin (x / y)
        | _, _ => NaN
        end
  end.

(** Subtraction and negation of numpy values. *)
Definition np_minus (a b : float64) : float64 :=
  match a, b with
  | NaN, _ => NaN
  | _, NaN => NaN
  | PosInf, PosInf => NaN
  | NegInf, NegInf => NaN
  | PosInf, _ => PosInf
  | NegInf, _ => NegInf
  | _, PosInf => NegInf
  | _, NegInf => PosInf
  | Fin x, Fin y => Fin (x - y)
  | Fin x, NegZero => Fin x
  | NegZero, Fin y => if Req_dec_T y 0 then NegZero else Fin (- y)
  | NegZero, NegZero => Fin 0
  end.

Definition np_neg (a : float64) : float64 :=
  match a with
  | Fin x => if Req_dec_T x 0 then NegZero else Fin (- x)
  | NegZero => Fin 0
  | PosInf => NegInf
  | NegInf => PosInf
  | NaN => NaN
  end.

(** [norm.cdf] on a numpy value, for [Phi] the distribution function on
    the reals. *)
Definition norm_cdf_at (Phi : R -> R) (a : float64) : npfloat :=
  match a with
  | Fin x => Some (Phi x)
  | NegZero => Some (Phi 0)
  | PosInf => Some 1
  | NegInf => Some 0
  | NaN => None
  end.

Definition nbind {A B : Type} (o : option A) (k : A -> option B) : option B :=
  match o with
  | Some a => k a
  | None => None
  end.

Notation "x <-- o ;; k" := (nbind o (fun x => k))
  (at level 61, o at next level, right associativity).

(** Arithmetic on prices: [nan] is contagious.  The divisors of the Greeks
    are the literals 0.001, 0.001 ** 2 and 1/252, never zero. *)
Definition np_sub (a b : npfloat) : npfloat := x <-- a ;; y <-- b ;; Some (x - y).
Definition np_add (a b : npfloat) : npfloat := x <-- a ;; y <-- b ;; Some (x + y).
Definition np_scale (c : R) (a : npfloat) : npfloat := x <-- a ;; Some (c * x).
Definition np_div_by (a : npfloat) (d : R) : npfloat :=
  x <-- a ;; if Req_dec_T d 0 then None else Some (x / d).

(** [x if x is not None else d] *)
Definition or_default (x : option R) (d : R) : R :=
  match x with
  | Some v => v
  | None => d
  end.

(** A keyword argument [option_type='call'] left out by the caller. *)
Definition kind_or_call (option_type : option string) : string :=
  match option_type with
  | Some k => k
  | None => "call"%string
  end.

Section Toolbox.

(** [scipy.stats.norm.cdf] *)
Variable Phi : R -> R.

(** [scipy.optimize.newton(func, x0)] *)
Variable newton : (R -> M pyval) -> R -> M npfloat.

(** ** Closed-form pricers *)

Definition black_scholes_european_call (S T sigma : option R) : M npfloat :=
  self <- get_self ;;
  let S := or_default S (Attrs.S self) in
  let T := or_default T (Attrs.T self) in
  let sigma := or_default sigma (Attrs.sigma self) in
  record_call (Invoke CallPricer S T sigma) ;;;
  q <- py_div S (Attrs.K self) ;;
  let d1 := np_div (np_add_py (np_log q) ((Attrs.r self + 0.5 * sigma ^ 2) * T))
                   (np_mul_py sigma (np_sqrt T)) in
  let d2 := np_minus d1 (np_mul_py sigma (np_sqrt T)) in
  ret (a <-- norm_cdf_at Phi d1 ;;
       b <-- norm_cdf_at Phi d2 ;;
       Some (S * a - Attrs.K self * exp (- Attrs.r self * T) * b)).

Definition black_scholes_european_put (S T sigma : option R) : M npfloat :=
  self <- get_self ;;
  let S := or_default S (Attrs.S self) in
  let T := or_default T (Attrs.T self) in
  let sigma := or_default sigma (Attrs.sigma self) in
  record_call (Invoke PutPricer S T sigma) ;;;
  q <- py_div S (Attrs.K self) ;;
  let d1 := np_div (np_add_py (np_log q) ((Attrs.r self + 0.5 * sigma ^ 2) * T))
                   (np_mul_py sigma (np_sqrt T)) in
  let d2 := np_minus d1 (np_mul_py sigma (np_sqrt T)) in
  ret (a <-- norm_cdf_at Phi (np_neg d2) ;;
       b <-- norm_cdf_at Phi (np_neg d1) ;;
       Some (Attrs.K self * exp (- Attrs.r self * T) * a - S * b)).

(** ** Price dispatcher *)

Definition calculate_black_scholes_option_price (option_type : option string)
  : M npfloat :=
  let option_type := kind_or_call option_type in
  if (option_type =? "call")%string then
    black_scholes_european_call None None None
  else if (option_type =? "put")%string then
    black_scholes_european_put None None None
  else
    raise (ValueError "Invalid option type. Use 'call' or 'put'.").

(** ** Implied volatility *)

(** The closure handed to [newton]; it has no [else] branch. *)
Definition implied_volatility_func (market_price : R) (option_type : string)
  (sigma : R) : M pyval :=
  if (option_type =? "call")%string then
    p <- black_scholes_european_call None None (Some sigma) ;;
    ret (PyFloat (np_sub p (Some market_price)))
  else if (option_type =? "put")%string then
    p <- black_scholes_european_put None None (Some sigma) ;;
    ret (PyFloat (np_sub p (Some market_price)))
  else
    ret PyNone.

Definition calculate_implied_volatility (market_price : R)
  (option_type : option string) : M npfloat :=
  let option_type := kind_or_call option_type in
  newton (implied_volatility_func market_price option_type) 0.2.

(** ** Greeks by finite differences *)

Definition calculate_delta (option_type : option string) : M npfloat :=
  let option_type := kind_or_call option_type in
  let epsilon := 0.001 in
  if (option_type =? "call")%string then
    self <- get_self ;;
    a <- black_scholes_european_call (Some (Attrs.S self + epsilon)) None None ;;
    b <- black_scholes_european_call (Some (Attrs.S self)) None None ;;
    ret (np_div_by (np_sub a b) epsilon)
  else if (option_type =? "put")%string then
    self <- get_self ;;
    a <- black_scholes_european_put (Some (Attrs.S self + epsilon)) None None ;;
    b <- black_scholes_european_put (Some (Attrs.S self)) None None ;;
    ret (np_div_by (np_sub a b) epsilon)
  else
    raise (ValueError "Invalid option type. Use 'call' or 'put'.").

Definition calculate_gamma : M npfloat :=
  let epsilon := 0.001 in
  self <- get_self ;;
  a <- black_scholes_european_call (Some (Attrs.S self + epsilon)) None None ;;
  b <- black_scholes_european_call (Some (Attrs.S self)) None None ;;
  c <- black_scholes_european_call (Some (Attrs.S self - epsilon)) None None ;;
  ret (np_div_by (np_add (np_sub a (np_scale 2 b)) c) (epsilon ^ 2)).

Definition calculate_theta (option_type : option string) : M npfloat :=
  let option_type := kind_or_call option_type in
  if (option_type =? "call")%string then
    self <- get_self ;;
    a <- black_scholes_european_call None (Some (Attrs.T self - 1 / 252)) None ;;
    b <- black_scholes_european_call None (Some (Attrs.T self)) None ;;
    ret (np_div_by (np_sub a b) (1 / 252))
  else if (option_type =? "put")%string then
    self <- get_self ;;
    a <- black_scholes_european_put None (Some (Attrs.T self - 1 / 252)) None ;;
    b <- black_scholes_european_put None (Some (Attrs.T self)) None ;;
    ret (np_div_by (np_sub a b) (1 / 252))
  else
    raise (ValueError "Invalid option type. Use 'call' or 'put'.").

Definition calculate_vega : M npfloat :=
  let epsilon := 0.001 in
  self <- get_self ;;
  a <- black_scholes_european_call None None (Some (Attrs.sigma self + epsilon)) ;;
  b <- black_scholes_european_call None None (Some (Attrs.sigma self)) ;;
  ret (np_div_by (np_sub a b) epsilon).

End Toolbox.

(** ** The formulas of the specification *)

(** These follow the written formulas for d1, d2 and the two prices; the
    pricers above are compared with them. *)
Definition spec_d1 (S K T sigma r : R) : R :=
  (ln (S / K) + (r + 0.5 * sigma ^ 2) * T) / (sigma * sqrt T).

Definition spec_d2 (S K T sigma r : R) : R :=
  spec_d1 S K T sigma r - sigma * sqrt T.

Definition spec_call (Phi : R -> R) (S K T sigma r : R) : R :=
  S * Phi (spec_d1 S K T sigma r) - K * exp (- r * T) * Phi (spec_d2 S K T sigma r).

Definition spec_put (Phi : R -> R) (S K T sigma r : R) : R :=
  K * exp (- r * T) * Phi (- spec_d2 S K T sigma r) - S * Phi (- spec_d1 S K T sigma r).

Definition spec_price (Phi : R -> R) (p : pricer) : R -> R -> R -> R -> R -> R :=
  match p with
  | CallPricer => spec_call Phi
  | PutPricer => spec_put Phi
  end.

(** The domain on which the formulas are meant. *)
Definition valid_inputs (S K T sigma : R) : Prop :=
  0 < S /\ 0 < K /\ 0 < T /\ 0 < sigma.

(** The two recognised kinds. *)
Definition pricer_of_kind (option_type : string) : option pricer :=
  if (option_type =? "call")%string then Some CallPricer
  else if (option_type =? "put")%string then Some PutPricer
  else None.

Definition price_with (Phi : R -> R) (p : pricer) : option R -> option R -> option R -> M npfloat :=
  match p with
  | CallPricer => black_scholes_european_call Phi
  | PutPricer => black_scholes_european_put Phi
  end.

(** The d1 and d2 a pricer computes once [S / K] went through. *)
Definition np_d1 (S K T sigma r : R) : float64 :=
  np_div (np_add_py (np_log (S / K)) ((r + 0.5 * sigma ^ 2) * T))
         (np_mul_py sigma (np_sqrt T)).

Definition np_d2 (S K T sigma r : R) : float64 :=
  np_minus (np_d1 S K T sigma r) (np_mul_py sigma (np_sqrt T)).

(** The value a pricer computes once [S / K] went through. *)
Definition priced (Phi : R -> R) (p : pricer) (S K T sigma r : R) : npfloat :=
  match p with
  | CallPricer =>
      a <-- norm_cdf_at Phi (np_d1 S K T sigma r) ;;
      b <-- norm_cdf_at Phi (np_d2 S K T sigma r) ;;
      Some (S * a - K * exp (- r * T) * b)
  | PutPricer =>
      a <-- norm_cdf_at Phi (np_neg (np_d2 S K T sigma r)) ;;
      b <-- norm_cdf_at Phi (np_neg (np_d1 S K T sigma r)) ;;
      Some (K * exp (- r * T) * a - S * b)
  end.

(** The finite number a numpy value stands for, if any. *)
Definition np_real (a : float64) : option R :=
  match a with
  | Fin x => Some x
  | NegZero => Some 0
  | _ => None
  end.

(** What an option is worth at expiry. *)
Definition payoff (p : pricer) (S K : R) : R :=
  match p with
  | CallPricer => Rmax (S - K) 0
  | PutPricer => Rmax (K - S) 0
  end.

(** The result of one pricer run on its effective inputs. *)
Definition pricer_result (Phi : R -> R) (p : pricer) (S K T sigma r : R)
  : outcome npfloat :=
  if Req_dec_T K 0 then Raise ZeroDivisionError
  else Return (priced Phi p S K T sigma r).

(** Two results combined the way Python evaluates [f(a, b)]: the first
    exception raised wins. *)
Definition outcome_map2 {A B C : Type} (f : A -> B -> C)
  (x : outcome A) (y : outcome B) : outcome C :=
  match x, y with
  | Return a, Return b => Return (f a b)
  | Raise e, _ => Raise e
  | Return _, Raise e => Raise e
  end.

(** A result passed through [f], an exception as it is. *)
Definition outcome_map {A B : Type} (f : A -> B) (x : outcome A) : outcome B :=
  match x with
  | Return a => Return (f a)
  | Raise e => Raise e
  end.

Definition outcome_map3 {A B C D : Type} (f : A -> B -> C -> D)
  (x : outcome A) (y : outcome B) (z : outcome C) : outcome D :=
  match x, y, z with
  | Return a, Return b, Return c => Return (f a b c)
  | Raise e, _, _ => Raise e
  | Return _, Raise e, _ => Raise e
  | Return _, Return _, Raise e => Raise e
  end.

(** The message of the three kind checks. *)
Definition invalid_option_type : exn :=
  ValueError "Invalid option type. Use 'call' or 'put'.".

(** ** The collaborators made concrete *)

(** The theorems below hold for any [Phi] and [newton] with the properties
    they name.  The standard normal distribution function, built here from
    the Riemann integral of the Gaussian kernel, and a secant iteration are
    the instances meant. *)

(** A derivative known up to an equation on its value. *)
Lemma derivable_pt_lim_eq (f : R -> R) (x l l' : R) :
  derivable_pt_lim f x l -> l = l' -> derivable_pt_lim f x l'.
Proof. now intros H <-. Qed.

(** The Gaussian kernel. *)
Definition gauss_kernel (x : R) : R := exp (- x ^ 2 / 2).

Lemma gauss_kernel_deriv (x : R) :
  derivable_pt_lim gauss_kernel x (- x * gauss_kernel x).
Proof.
  unfold gauss_kernel.
  apply derivable_pt_lim_eq with (l := exp (- x ^ 2 / 2) * (- (2 * x) / 2)); [|field].
  refine (derivable_pt_lim_comp (fun x => - x ^ 2 / 2) exp x _ _ _ (derivable_pt_lim_exp _)).
  refine (derivable_pt_lim_div_scal (fun x => - x ^ 2) x _ 2 _).
  refine (derivable_pt_lim_opp (fun x => x ^ 2) x _ _).
  apply derivable_pt_lim_eq with (l := INR 2 * x ^ pred 2); [|simpl; ring].
  exact (derivable_pt_lim_pow x 2).
Qed.

Lemma gauss_kernel_continuity (x : R) : continuity_pt gauss_kernel x.
Proof.
  apply derivable_continuous_pt. exists (- x * gauss_kernel x).
  apply gauss_kernel_deriv.
Qed.

(** The area under a continuous function from [a]. *)
Section Area.

Variable f : R -> R.
Hypothesis f_cont : forall x, continuity_pt f x.

Lemma cont_integrable (a b : R) : Riemann_integrable f a b.
Proof.
  destruct (Rle_dec a b) as [Hab|Hab].
  - apply continuity_implies_RiemannInt; [assumption|].
    intros x _. apply f_cont.
  - apply RiemannInt_P1, continuity_implies_RiemannInt; [lra|].
    intros x _. apply f_cont.
Qed.

Definition area (a x : R) : R := RiemannInt (cont_integrable a x).

End Area.

Definition gauss_area : R -> R := area gauss_kernel gauss_kernel_continuity 0.

(** The standard normal distribution function, which [norm.cdf] computes. *)
Definition norm_cdf (x : R) : R := 1 / 2 + / sqrt (2 * PI) * gauss_area x.

(** The integrand of the Gaussian integral in polar form, with its first
    two derivatives in [x]. *)
Definition polar_g (x t : R) : R := exp (- (x ^ 2 * (1 + t ^ 2)) / 2) / (1 + t ^ 2).
Definition polar_g1 (x t : R) : R := - x * exp (- (x ^ 2 * (1 + t ^ 2)) / 2).
Definition polar_g2 (x t : R) : R :=
  (x ^ 2 * (1 + t ^ 2) - 1) * exp (- (x ^ 2 * (1 + t ^ 2)) / 2).

(** The secant iteration [newton] runs when it is given no derivative, with
    the defaults [tol = 1.48e-8] and [maxiter = 50].  A value of the
    function that is not a number stops it: [abs(None)] is a [TypeError],
    and on [nan] the iteration cannot converge. *)
Definition py_abs_arg (v : pyval) : M R :=
  match v with
  | PyFloat (Some x) => ret x
  | PyFloat None => raise RuntimeError
  | PyNone => raise TypeError
  end.

Fixpoint secant_loop (maxiter : nat) (func : R -> M pyval) (p0 q0 p1 q1 : R)
  : M npfloat :=
  match maxiter with
  | O => raise RuntimeError
  | S n =>
      if Req_dec_T q1 q0 then
        if Req_dec_T p1 p0 then ret (Some ((p1 + p0) / 2)) else raise RuntimeError
      else
        let p :=
          if Rlt_dec (Rabs q0) (Rabs q1)
          then (- q0 / q1 * p1 + p0) / (1 - q0 / q1)
          else (- q1 / q0 * p0 + p1) / (1 - q1 / q0) in
        if Rle_dec (Rabs (p - p1)) 1.48e-8 then ret (Some p)
        else
          v <- func p ;;
          q <- py_abs_arg v ;;
          secant_loop n func p1 q1 p q
  end.

Definition secant_newton (func : R -> M pyval) (x0 : R) : M npfloat :=
  let eps := 1e-4 in
  let p0 := x0 in
  let p1 := x0 * (1 + eps) in
  let p1 := p1 + (if Rle_dec 0 p1 then eps else - eps) in
  v0 <- func p0 ;;
  v1 <- func p1 ;;
  q1 <- py_abs_arg v1 ;;
  q0 <- py_abs_arg v0 ;;
  if Rlt_dec (Rabs q1) (Rabs q0)
  then secant_loop 50 func p1 q1 p0 q0
  else secant_loop 50 func p0 q0 p1 q1.

(** The contract of [example_usage.py]. *)
Definition example_toolbox : OptionGreeksToolbox := __init__ 100 100 1 0.2 0.05.

(** A contract less than a trading day from expiry. *)
Definition short_dated_toolbox : OptionGreeksToolbox :=
  __init__ 100 100 (1 / 300) 0.2 0.05.

(** A contract with a zero strike, and one with a spot below the step of
    the spot differences. *)
Definition zero_strike_toolbox : OptionGreeksToolbox := __init__ 100 0 1 0.2 0.05.
Definition penny_toolbox : OptionGreeksToolbox := __init__ 0.0005 100 1 0.2 0.05.

(** A contract with the spot at the step of the finite differences, and
    one a trading day from expiry. *)
Definition step_toolbox : OptionGreeksToolbox := __init__ 0.001 100 1 0.2 0.05.
Definition expiry_day_toolbox : OptionGreeksToolbox :=
  __init__ 110 100 (1 / 252) 0.2 0.05.

(** ** Properties *)

Section Properties.

Variable Phi : R -> R.
Variable newton : (R -> M pyval) -> R -> M npfloat.

Local Abbreviation price := (price_with Phi).

(** *** What one pricer run does *)

Lemma price_with_run (p : pricer) (So To sigo : option R) (self : OptionGreeksToolbox) :
  let S := or_default So (Attrs.S self) in
  let T := or_default To (Attrs.T self) in
  let sigma := or_default sigo (Attrs.sigma self) in
  price p So To sigo self =
    Ran (pricer_result Phi p S (Attrs.K self) T sigma (Attrs.r self)) self
        [Invoke p S T sigma].
Proof.
  destruct p; cbv zeta;
    unfold price_with, black_scholes_european_call, black_scholes_european_put,
      pricer_result, priced, bind, get_self, record_call, py_div, ret, raise;
    destruct (Req_dec_T (Attrs.K self) 0); reflexivity.
Qed.

(** Where the divisor [sigma * sqrt T] is a finite number other than zero
    and [S / K] is positive, d1 and d2 are the finite numbers of the written
    formulas. *)
Lemma np_div_finite (n d : R) :
  d <> 0 -> np_real (np_div (Fin n) (Fin d)) = Some (n / d).
Proof.
  intros Hd. unfold np_div, np_is_zero.
  destruct (Req_dec_T d 0) as [e|_]; [contradiction|].
  destruct (Req_dec_T n 0) as [->|_]; [|reflexivity].
  unfold Rdiv. rewrite Rmult_0_l.
  destruct (xorb _ _); reflexivity.
Qed.

Lemma np_minus_finite (a : float64) (x d : R) :
  np_real a = Some x -> np_real (np_minus a (Fin d)) = Some (x - d).
Proof.
  destruct a as [y| | | |]; cbn; try discriminate.
  - now intros [= ->].
  - intros [= <-]. destruct (Req_dec_T d 0) as [->|_]; cbn; f_equal; ring.
Qed.

Lemma np_neg_finite (a : float64) (x : R) :
  np_real a = Some x -> np_real (np_neg a) = Some (- x).
Proof.
  destruct a as [y| | | |]; cbn; try discriminate.
  - intros [= ->]. destruct (Req_dec_T x 0) as [->|_]; cbn; f_equal; ring.
  - intros [= <-]. f_equal. ring.
Qed.

Lemma norm_cdf_at_finite (a : float64) (x : R) :
  np_real a = Some x -> norm_cdf_at Phi a = Some (Phi x).
Proof.
  destruct a as [y| | | |]; cbn; try discriminate; now intros [= ->].
Qed.

Lemma np_divisor_finite (T sigma : R) :
  0 < T -> sigma <> 0 ->
  np_mul_py sigma (np_sqrt T) = Fin (sigma * sqrt T) /\ sigma * sqrt T <> 0.
Proof.
  intros HT Hs.
  assert (Hr : 0 < sqrt T) by (apply sqrt_lt_R0; assumption).
  assert (Hd : sigma * sqrt T <> 0) by (apply Rmult_integral_contrapositive; lra).
  split; [|assumption].
  unfold np_sqrt, np_mul_py.
  destruct (Rle_dec 0 T) as [_|n]; [|exfalso; lra].
  now destruct (Req_dec_T (sigma * sqrt T) 0).
Qed.

Lemma np_d1_finite (S K T sigma r : R) :
  0 < S / K -> 0 < T -> sigma <> 0 ->
  np_real (np_d1 S K T sigma r) = Some (spec_d1 S K T sigma r).
Proof.
  intros Hq HT Hs. destruct (np_divisor_finite T sigma HT Hs) as [E Hd].
  unfold np_d1, np_log. rewrite E.
  destruct (Rlt_dec 0 (S / K)) as [_|n]; [|contradiction].
  cbn [np_add_py]. now apply np_div_finite.
Qed.

Lemma np_d2_finite (S K T sigma r : R) :
  0 < S / K -> 0 < T -> sigma <> 0 ->
  np_real (np_d2 S K T sigma r) = Some (spec_d2 S K T sigma r).
Proof.
  intros Hq HT Hs. destruct (np_divisor_finite T sigma HT Hs) as [E _].
  unfold np_d2. rewrite E.
  now apply np_minus_finite, np_d1_finite.
Qed.

Lemma priced_defined (p : pricer) (S K T sigma r : R) :
  0 < S / K -> 0 < T -> sigma <> 0 ->
  priced Phi p S K T sigma r = Some (spec_price Phi p S K T sigma r).
Proof.
  intros Hq HT Hs.
  pose proof (np_d1_finite S K T sigma r Hq HT Hs) as H1.
  pose proof (np_d2_finite S K T sigma r Hq HT Hs) as H2.
  destruct p; unfold priced.
  - rewrite (norm_cdf_at_finite _ _ H1), (norm_cdf_at_finite _ _ H2). reflexivity.
  - rewrite (norm_cdf_at_finite _ _ (np_neg_finite _ _ H2)),
      (norm_cdf_at_finite _ _ (np_neg_finite _ _ H1)). reflexivity.
Qed.

Lemma priced_valid (p : pricer) (S K T sigma r : R) :
  valid_inputs S K T sigma ->
  priced Phi p S K T sigma r = Some (spec_price Phi p S K T sigma r).
Proof.
  intros (HS & HK & HT & Hs).
  apply priced_defined; [now apply Rdiv_lt_0_compat|assumption|lra].
Qed.

Lemma pricer_result_valid (p : pricer) (S K T sigma r : R) :
  valid_inputs S K T sigma ->
  pricer_result Phi p S K T sigma r = Return (Some (spec_price Phi p S K T sigma r)).
Proof.
  intros H. unfold pricer_result.
  destruct (Req_dec_T K 0) as [e|_].
  - destruct H as (_ & HK & _). exfalso; lra.
  - now rewrite priced_valid.
Qed.

(** Sequencing after a pricer run: the object is handed on as it was. *)
Lemma bind_price {B : Type} (p : pricer) (So To sigo : option R)
  (k : npfloat -> M B) (self : OptionGreeksToolbox) :
  let S := or_default So (Attrs.S self) in
  let T := or_default To (Attrs.T self) in
  let sigma := or_default sigo (Attrs.sigma self) in
  bind (price p So To sigo) k self =
    match pricer_result Phi p S (Attrs.K self) T sigma (Attrs.r self) with
    | Return a =>
        Ran (result (k a self)) (self_after (k a self))
            (Invoke p S T sigma :: calls (k a self))
    | Raise e => Ran (Raise e) self [Invoke p S T sigma]
    end.
Proof.
  cbv zeta. unfold bind at 1. rewrite price_with_run.
  destruct (pricer_result Phi p _ _ _ _ _); [destruct (k a self)|]; reflexivity.
Qed.

Lemma bind_get_self {B : Type} (k : OptionGreeksToolbox -> M B)
  (self : OptionGreeksToolbox) :
  bind get_self k self = k self self.
Proof.
  unfold bind, get_self. now destruct (k self self).
Qed.

Lemma pricer_of_kind_inv (kind : string) (p : pricer) :
  pricer_of_kind kind = Some p ->
  (kind = "call"%string /\ p = CallPricer) \/ (kind = "put"%string /\ p = PutPricer).
Proof.
  unfold pricer_of_kind.
  destruct (kind =? "call")%string eqn:Ec.
  - apply String.eqb_eq in Ec. intros [= <-]. now left.
  - destruct (kind =? "put")%string eqn:Ep; [|discriminate].
    apply String.eqb_eq in Ep. intros [= <-]. now right.
Qed.

Lemma pricer_of_kind_none (kind : string) :
  kind <> "call"%string -> kind <> "put"%string ->
  (kind =? "call")%string = false /\ (kind =? "put")%string = false.
Proof.
  intros Hc Hp. split; apply String.eqb_neq; assumption.
Qed.

Ltac kind_cases H :=
  apply pricer_of_kind_inv in H; destruct H as [[-> ->]|[-> ->]].

Lemma pricer_result_zero_strike (p : pricer) (S K T sigma r : R) :
  K = 0 -> pricer_result Phi p S K T sigma r = Raise ZeroDivisionError.
Proof.
  intros HK. unfold pricer_result. now destruct (Req_dec_T K 0).
Qed.

Lemma pricer_result_strike (p : pricer) (S K T sigma r : R) :
  K <> 0 -> pricer_result Phi p S K T sigma r = Return (priced Phi p S K T sigma r).
Proof.
  intros HK. unfold pricer_result. now destruct (Req_dec_T K 0).
Qed.

Lemma np_div_by_some (a : npfloat) (d : R) :
  d <> 0 -> np_div_by a d = match a with Some x => Some (x / d) | None => None end.
Proof.
  intros Hd. unfold np_div_by, np_div, nbind. destruct a; [|reflexivity].
  now destruct (Req_dec_T d 0).
Qed.

(** Runs a method body made of pricer calls, by cases on the strike. *)
Ltac run_pricers self :=
  change (black_scholes_european_call Phi) with (price CallPricer);
  change (black_scholes_european_put Phi) with (price PutPricer);
  destruct (Req_dec_T (Attrs.K self) 0) as [HK|HK];
  repeat (rewrite ?price_with_run, ?bind_price; cbv zeta; cbn [or_default];
          first [ rewrite !(pricer_result_zero_strike _ _ _ _ _ _ HK)
                | rewrite !(pricer_result_strike _ _ _ _ _ _ HK) ];
          cbn [result calls self_after outcome_map2 outcome_map3 ret]).

(** *** What one Greek run does *)

Lemma calculate_delta_run (self : OptionGreeksToolbox) (kind : string) (p : pricer) :
  pricer_of_kind kind = Some p ->
  let S := Attrs.S self in
  let K := Attrs.K self in
  let T := Attrs.T self in
  let sigma := Attrs.sigma self in
  let r := Attrs.r self in
  calculate_delta Phi (Some kind) self =
    if Req_dec_T K 0 then
      Ran (Raise ZeroDivisionError) self [Invoke p (S + 0.001) T sigma]
    else
      Ran (Return (np_div_by (np_sub (priced Phi p (S + 0.001) K T sigma r)
                                     (priced Phi p S K T sigma r)) 0.001))
          self [Invoke p (S + 0.001) T sigma; Invoke p S T sigma].
Proof.
  intros H. kind_cases H.
  all: unfold calculate_delta, kind_or_call; cbn [String.eqb Ascii.eqb Bool.eqb];
    cbv zeta; rewrite !bind_get_self.
  all: run_pricers self; reflexivity.
Qed.

Lemma calculate_theta_run (self : OptionGreeksToolbox) (kind : string) (p : pricer) :
  pricer_of_kind kind = Some p ->
  let S := Attrs.S self in
  let K := Attrs.K self in
  let T := Attrs.T self in
  let sigma := Attrs.sigma self in
  let r := Attrs.r self in
  calculate_theta Phi (Some kind) self =
    if Req_dec_T K 0 then
      Ran (Raise ZeroDivisionError) self [Invoke p S (T - 1 / 252) sigma]
    else
      Ran (Return (np_div_by (np_sub (priced Phi p S K (T - 1 / 252) sigma r)
                                     (priced Phi p S K T sigma r)) (1 / 252)))
          self [Invoke p S (T - 1 / 252) sigma; Invoke p S T sigma].
Proof.
  intros H. kind_cases H.
  all: unfold calculate_theta, kind_or_call; cbn [String.eqb Ascii.eqb Bool.eqb];
    cbv zeta; rewrite !bind_get_self.
  all: run_pricers self; reflexivity.
Qed.

Lemma calculate_gamma_run (self : OptionGreeksToolbox) :
  let S := Attrs.S self in
  let K := Attrs.K self in
  let T := Attrs.T self in
  let sigma := Attrs.sigma self in
  let r := Attrs.r self in
  calculate_gamma Phi self =
    if Req_dec_T K 0 then
      Ran (Raise ZeroDivisionError) self [Invoke CallPricer (S + 0.001) T sigma]
    else
      Ran (Return (np_div_by
                     (np_add (np_sub (priced Phi CallPricer (S + 0.001) K T sigma r)
                                     (np_scale 2 (priced Phi CallPricer S K T sigma r)))
                             (priced Phi CallPricer (S - 0.001) K T sigma r))
                     (0.001 ^ 2)))
          self
          [Invoke CallPricer (S + 0.001) T sigma; Invoke CallPricer S T sigma;
           Invoke CallPricer (S - 0.001) T sigma].
Proof.
  unfold calculate_gamma; cbv zeta; rewrite !bind_get_self.
  run_pricers self; reflexivity.
Qed.

Lemma calculate_vega_run (self : OptionGreeksToolbox) :
  let S := Attrs.S self in
  let K := Attrs.K self in
  let T := Attrs.T self in
  let sigma := Attrs.sigma self in
  let r := Attrs.r self in
  calculate_vega Phi self =
    if Req_dec_T K 0 then
      Ran (Raise ZeroDivisionError) self [Invoke CallPricer S T (sigma + 0.001)]
    else
      Ran (Return (np_div_by (np_sub (priced Phi CallPricer S K T (sigma + 0.001) r)
                                     (priced Phi CallPricer S K T sigma r)) 0.001))
          self
          [Invoke CallPricer S T (sigma + 0.001); Invoke CallPricer S T sigma].
Proof.
  unfold calculate_vega; cbv zeta; rewrite !bind_get_self.
  run_pricers self; reflexivity.
Qed.

(** *** The Greeks on valid inputs, in the formulas of the specification *)

Ltac valid_run :=
  cbv zeta;
  match goal with
  | |- context [Req_dec_T ?K 0] => destruct (Req_dec_T K 0); [exfalso; lra|]
  end;
  cbn [result];
  rewrite !priced_valid by (repeat split; lra);
  cbn [np_sub np_add np_scale nbind];
  rewrite np_div_by_some by lra.

Lemma calculate_delta_valid (self : OptionGreeksToolbox) (kind : string) (p : pricer) :
  pricer_of_kind kind = Some p ->
  let S := Attrs.S self in
  let K := Attrs.K self in
  let T := Attrs.T self in
  let sigma := Attrs.sigma self in
  let r := Attrs.r self in
  valid_inputs S K T sigma ->
  result (calculate_delta Phi (Some kind) self)
  = Return (Some ((spec_price Phi p (S + 0.001) K T sigma r
                   - spec_price Phi p S K T sigma r) / 0.001)).
Proof.
  intros H S K T sigma r (HS & HKp & HT & Hs). subst S K T sigma r.
  rewrite (calculate_delta_run self kind p H). valid_run. reflexivity.
Qed.

Lemma calculate_theta_valid (self : OptionGreeksToolbox) (kind : string) (p : pricer) :
  pricer_of_kind kind = Some p ->
  let S := Attrs.S self in
  let K := Attrs.K self in
  let T := Attrs.T self in
  let sigma := Attrs.sigma self in
  let r := Attrs.r self in
  valid_inputs S K T sigma -> 1 / 252 < T ->
  result (calculate_theta Phi (Some kind) self)
  = Return (Some ((spec_price Phi p S K (T - 1 / 252) sigma r
                   - spec_price Phi p S K T sigma r) / (1 / 252))).
Proof.
  intros H S K T sigma r (HS & HKp & HT & Hs) Hday. subst S K T sigma r.
  rewrite (calculate_theta_run self kind p H). valid_run. reflexivity.
Qed.

Lemma calculate_gamma_valid (self : OptionGreeksToolbox) :
  let S := Attrs.S self in
  let K := Attrs.K self in
  let T := Attrs.T self in
  let sigma := Attrs.sigma self in
  let r := Attrs.r self in
  valid_inputs S K T sigma -> 0.001 < S ->
  result (calculate_gamma Phi self)
  = Return (Some ((spec_call Phi (S + 0.001) K T sigma r
                   - 2 * spec_call Phi S K T sigma r
                   + spec_call Phi (S - 0.001) K T sigma r) / 0.001 ^ 2)).
Proof.
  intros S K T sigma r (HS & HKp & HT & Hs) Heps. subst S K T sigma r.
  rewrite calculate_gamma_run. valid_run. reflexivity.
Qed.

Lemma calculate_vega_valid (self : OptionGreeksToolbox) :
  let S := Attrs.S self in
  let K := Attrs.K self in
  let T := Attrs.T self in
  let sigma := Attrs.sigma self in
  let r := Attrs.r self in
  valid_inputs S K T sigma ->
  result (calculate_vega Phi self)
  = Return (Some ((spec_call Phi S K T (sigma + 0.001) r
                   - spec_call Phi S K T sigma r) / 0.001)).
Proof.
  intros S K T sigma r (HS & HKp & HT & Hs). subst S K T sigma r.
  rewrite calculate_vega_run. valid_run. reflexivity.
Qed.

(** Unfolds the runs on both sides of a statement about a Greek. *)
Ltac by_runs self :=
  change (black_scholes_european_call Phi) with (price CallPricer);
  rewrite ?price_with_run; cbv zeta; cbn [or_default];
  unfold pricer_result;
  destruct (Req_dec_T (Attrs.K self) 0);
  cbn [result calls self_after outcome_map2 outcome_map3].

(** *** Dispatch *)

(** C3: [calculate_black_scholes_option_price] returns the call pricer's
    value on the stored inputs for ["call"], the put pricer's for ["put"],
    and raises the invalid-argument error for every other kind, so for
    ["straddle"]. *)
Theorem calculate_price_dispatch (self : OptionGreeksToolbox) :
  calculate_black_scholes_option_price Phi (Some "call"%string) self
    = black_scholes_european_call Phi None None None self
  /\ calculate_black_scholes_option_price Phi (Some "put"%string) self
    = black_scholes_european_put Phi None None None self
  /\ (forall p,
        result (price p None None None self)
        = pricer_result Phi p (Attrs.S self) (Attrs.K self) (Attrs.T self)
            (Attrs.sigma self) (Attrs.r self))
  /\ (forall kind, kind <> "call"%string -> kind <> "put"%string ->
        calculate_black_scholes_option_price Phi (Some kind) self
        = Ran (Raise invalid_option_type) self [])
  /\ calculate_black_scholes_option_price Phi (Some "straddle"%string) self
    = Ran (Raise invalid_option_type) self [].
Proof.
  repeat split.
  - intros p. now rewrite price_with_run.
  - intros kind Hc Hp.
    destruct (pricer_of_kind_none kind Hc Hp) as [Ec Ep].
    unfold calculate_black_scholes_option_price, kind_or_call.
    now rewrite Ec, Ep.
Qed.

(** *** Greeks *)

(** C4: for a recognised kind, delta is the forward difference of that
    kind's pricer in the spot, with step 0.001; both pricer runs keep the
    stored maturity and volatility (strike and rate cannot be overridden).  On valid inputs that is the
    forward difference of the written price formula. *)
Theorem calculate_delta_forward_difference
  (self : OptionGreeksToolbox) (kind : string) (p : pricer) :
  pricer_of_kind kind = Some p ->
  result (calculate_delta Phi (Some kind) self)
  = outcome_map2 (fun a b => np_div_by (np_sub a b) 0.001)
      (result (price p (Some (Attrs.S self + 0.001)) None None self))
      (result (price p (Some (Attrs.S self)) None None self))
  /\ (forall i, In i (calls (calculate_delta Phi (Some kind) self)) ->
        inv_pricer i = p /\ inv_T i = Attrs.T self /\ inv_sigma i = Attrs.sigma self)
  /\ (valid_inputs (Attrs.S self) (Attrs.K self) (Attrs.T self) (Attrs.sigma self) ->
      result (calculate_delta Phi (Some kind) self)
      = Return (Some ((spec_price Phi p (Attrs.S self + 0.001) (Attrs.K self)
                         (Attrs.T self) (Attrs.sigma self) (Attrs.r self)
                       - spec_price Phi p (Attrs.S self) (Attrs.K self)
                           (Attrs.T self) (Attrs.sigma self) (Attrs.r self))
                      / 0.001))).
Proof.
  intros H. apply and_assoc. split; [|exact (calculate_delta_valid self kind p H)].
  rewrite (calculate_delta_run self kind p H). cbv zeta.
  by_runs self.
  all: split; [reflexivity|].
  all: cbn [In]; intros i Hi; intuition (subst; reflexivity).
Qed.

(** C5: for a recognised kind, theta is the difference of that kind's
    pricer between the maturity shortened by 1/252 and the stored maturity,
    divided by 1/252; both pricer runs keep the stored spot and
    volatility.  On valid inputs with more than a day to expiry that is the
    difference of the written price formula. *)
Theorem calculate_theta_backward_difference
  (self : OptionGreeksToolbox) (kind : string) (p : pricer) :
  pricer_of_kind kind = Some p ->
  result (calculate_theta Phi (Some kind) self)
  = outcome_map2 (fun a b => np_div_by (np_sub a b) (1 / 252))
      (result (price p None (Some (Attrs.T self - 1 / 252)) None self))
      (result (price p None (Some (Attrs.T self)) None self))
  /\ (forall i, In i (calls (calculate_theta Phi (Some kind) self)) ->
        inv_pricer i = p /\ inv_S i = Attrs.S self /\ inv_sigma i = Attrs.sigma self)
  /\ (valid_inputs (Attrs.S self) (Attrs.K self) (Attrs.T self) (Attrs.sigma self) ->
      1 / 252 < Attrs.T self ->
      result (calculate_theta Phi (Some kind) self)
      = Return (Some ((spec_price Phi p (Attrs.S self) (Attrs.K self)
                         (Attrs.T self - 1 / 252) (Attrs.sigma self) (Attrs.r self)
                       - spec_price Phi p (Attrs.S self) (Attrs.K self)
                           (Attrs.T self) (Attrs.sigma self) (Attrs.r self))
                      / (1 / 252)))).
Proof.
  intros H. apply and_assoc. split; [|exact (calculate_theta_valid self kind p H)].
  rewrite (calculate_theta_run self kind p H). cbv zeta.
  by_runs self.
  all: split; [reflexivity|].
  all: cbn [In]; intros i Hi; intuition (subst; reflexivity).
Qed.

(** C6: gamma is the central second difference of the call pricer in the
    spot and vega the forward difference of the call pricer in the
    volatility, both with step 0.001; neither has a kind argument and every
    pricer run either makes is a run of the call pricer.  On valid inputs
    they are those differences of the written call formula. *)
Theorem gamma_vega_use_call_pricer (self : OptionGreeksToolbox) :
  result (calculate_gamma Phi self)
  = outcome_map3
      (fun a b c => np_div_by (np_add (np_sub a (np_scale 2 b)) c) (0.001 ^ 2))
      (result (black_scholes_european_call Phi (Some (Attrs.S self + 0.001)) None None self))
      (result (black_scholes_european_call Phi (Some (Attrs.S self)) None None self))
      (result (black_scholes_european_call Phi (Some (Attrs.S self - 0.001)) None None self))
  /\ result (calculate_vega Phi self)
  = outcome_map2 (fun a b => np_div_by (np_sub a b) 0.001)
      (result (black_scholes_european_call Phi None None (Some (Attrs.sigma self + 0.001)) self))
      (result (black_scholes_european_call Phi None None (Some (Attrs.sigma self)) self))
  /\ (forall i, In i (calls (calculate_gamma Phi self)) -> inv_pricer i = CallPricer)
  /\ (forall i, In i (calls (calculate_vega Phi self)) -> inv_pricer i = CallPricer)
  /\ (valid_inputs (Attrs.S self) (Attrs.K self) (Attrs.T self) (Attrs.sigma self) ->
      (0.001 < Attrs.S self ->
       result (calculate_gamma Phi self)
       = Return (Some ((spec_call Phi (Attrs.S self + 0.001) (Attrs.K self)
                          (Attrs.T self) (Attrs.sigma self) (Attrs.r self)
                        - 2 * spec_call Phi (Attrs.S self) (Attrs.K self)
                                (Attrs.T self) (Attrs.sigma self) (Attrs.r self)
                        + spec_call Phi (Attrs.S self - 0.001) (Attrs.K self)
                            (Attrs.T self) (Attrs.sigma self) (Attrs.r self))
                       / 0.001 ^ 2)))
      /\ result (calculate_vega Phi self)
         = Return (Some ((spec_call Phi (Attrs.S self) (Attrs.K self) (Attrs.T self)
                            (Attrs.sigma self + 0.001) (Attrs.r self)
                          - spec_call Phi (Attrs.S self) (Attrs.K self) (Attrs.T self)
                              (Attrs.sigma self) (Attrs.r self))
                         / 0.001))).
Proof.
  assert (Hvalid :
    valid_inputs (Attrs.S self) (Attrs.K self) (Attrs.T self) (Attrs.sigma self) ->
    (0.001 < Attrs.S self -> _) /\ _)
    by (intros Hv; exact (conj (calculate_gamma_valid self Hv)
                               (calculate_vega_valid self Hv))).
  rewrite calculate_gamma_run, calculate_vega_run in *. cbv zeta in *.
  revert Hvalid. by_runs self.
  all: intros Hvalid; repeat split; try reflexivity; try apply Hvalid; try assumption.
  all: cbn [In]; intros i Hi; intuition (subst; reflexivity).
Qed.

(** *** Default kind *)

(** C9: every operation with a kind argument treats a missing argument as
    ["call"]. *)
Theorem omitted_kind_is_call (self : OptionGreeksToolbox) (market_price : R) :
  calculate_black_scholes_option_price Phi None self
    = calculate_black_scholes_option_price Phi (Some "call"%string) self
  /\ calculate_implied_volatility Phi newton market_price None self
    = calculate_implied_volatility Phi newton market_price (Some "call"%string) self
  /\ calculate_delta Phi None self = calculate_delta Phi (Some "call"%string) self
  /\ calculate_theta Phi None self = calculate_theta Phi (Some "call"%string) self.
Proof.
  repeat split.
Qed.

(** *** The kind check *)

(** The dispatcher, delta and theta test the kind before they touch a
    pricer: an unknown kind raises at once, whatever the stored numbers. *)
Lemma unknown_kind_rejected (self : OptionGreeksToolbox) (kind : string) :
  pricer_of_kind kind = None ->
  calculate_black_scholes_option_price Phi (Some kind) self
    = Ran (Raise invalid_option_type) self []
  /\ calculate_delta Phi (Some kind) self = Ran (Raise invalid_option_type) self []
  /\ calculate_theta Phi (Some kind) self = Ran (Raise invalid_option_type) self [].
Proof.
  unfold pricer_of_kind, calculate_black_scholes_option_price, calculate_delta,
    calculate_theta, kind_or_call.
  destruct (kind =? "call")%string; [discriminate|].
  destruct (kind =? "put")%string; [discriminate|].
  intros _. repeat split.
Qed.

(** C2, at the kind ["straddle"]: the function handed to the root finder
    returns Python's [None] at every volatility instead of raising, and
    [calculate_implied_volatility] runs the root finder on it; no kind check
    is made. *)
Theorem implied_volatility_straddle_unchecked
  (self : OptionGreeksToolbox) (market_price : R) :
  (forall sigma,
      implied_volatility_func Phi market_price "straddle"%string sigma self
      = Ran (Return PyNone) self [])
  /\ calculate_implied_volatility Phi newton market_price (Some "straddle"%string) self
    = newton (fun _ => ret PyNone) 0.2 self.
Proof.
  split; reflexivity.
Qed.

(** *** Stored attributes *)

(** The root finder works on the object only through the function it is
    given. *)
Hypothesis newton_frame :
  forall (func : R -> M pyval) (x0 : R) (self : OptionGreeksToolbox),
    (forall x s, self_after (func x s) = s) ->
    self_after (newton func x0 self) = self.

Lemma price_with_frame (p : pricer) (So To sigo : option R) (self : OptionGreeksToolbox) :
  self_after (price p So To sigo self) = self.
Proof.
  now rewrite price_with_run.
Qed.

Lemma bind_frame {A B : Type} (m : M A) (k : A -> M B) (self : OptionGreeksToolbox) :
  self_after (m self) = self ->
  (forall a, self_after (k a self) = self) ->
  self_after (bind m k self) = self.
Proof.
  intros Hm Hk. unfold bind.
  destruct (m self) as [[a|e] s tr]; cbn in Hm; subst s.
  - specialize (Hk a). destruct (k a self). exact Hk.
  - reflexivity.
Qed.

Lemma implied_volatility_func_frame (market_price : R) (kind : string)
  (sigma : R) (self : OptionGreeksToolbox) :
  self_after (implied_volatility_func Phi market_price kind sigma self) = self.
Proof.
  unfold implied_volatility_func.
  destruct (kind =? "call")%string; [|destruct (kind =? "put")%string].
  - apply bind_frame; [apply (price_with_frame CallPricer)|reflexivity].
  - apply bind_frame; [apply (price_with_frame PutPricer)|reflexivity].
  - reflexivity.
Qed.

Ltac frame :=
  repeat first
    [ reflexivity
    | apply (price_with_frame CallPricer)
    | apply (price_with_frame PutPricer)
    | apply bind_frame; [|intros ?] ].

(** C7: no public operation changes a stored attribute.  A pricer takes
    its spot, maturity and volatility from the overrides of that one call
    and its strike and rate from the object, and a later call without
    overrides sees the stored values again. *)
Theorem stored_attributes_unchanged (self : OptionGreeksToolbox) :
  (forall p So To sigo,
      self_after (price p So To sigo self) = self
      /\ result (price p So To sigo self)
         = pricer_result Phi p (or_default So (Attrs.S self)) (Attrs.K self)
             (or_default To (Attrs.T self)) (or_default sigo (Attrs.sigma self))
             (Attrs.r self)
      /\ result ((price p So To sigo ;;; price p None None None) self)
         = result (price p None None None self))
  /\ (forall kind, self_after (calculate_black_scholes_option_price Phi kind self) = self)
  /\ (forall market_price kind,
        self_after (calculate_implied_volatility Phi newton market_price kind self) = self)
  /\ (forall kind, self_after (calculate_delta Phi kind self) = self)
  /\ self_after (calculate_gamma Phi self) = self
  /\ (forall kind, self_after (calculate_theta Phi kind self) = self)
  /\ self_after (calculate_vega Phi self) = self.
Proof.
  repeat split.
  - apply price_with_frame.
  - now rewrite price_with_run.
  - rewrite bind_price, !price_with_run. cbv zeta. cbn [or_default result].
    unfold pricer_result. now destruct (Req_dec_T (Attrs.K self) 0).
  - intros kind. unfold calculate_black_scholes_option_price.
    destruct (kind_or_call kind =? "call")%string;
      [|destruct (kind_or_call kind =? "put")%string]; frame.
  - intros market_price kind. unfold calculate_implied_volatility.
    apply newton_frame. intros x s. apply implied_volatility_func_frame.
  - intros kind. unfold calculate_delta.
    destruct (kind_or_call kind =? "call")%string;
      [|destruct (kind_or_call kind =? "put")%string]; frame.
  - unfold calculate_gamma. frame.
  - intros kind. unfold calculate_theta.
    destruct (kind_or_call kind =? "call")%string;
      [|destruct (kind_or_call kind =? "put")%string]; frame.
  - unfold calculate_vega. frame.
Qed.

(** *** Theta near expiry *)

(** Below zero maturity [np.sqrt] is [nan] and so is the price. *)
Lemma np_d1_negative_maturity (S K T sigma r : R) :
  T < 0 -> np_d1 S K T sigma r = NaN /\ np_mul_py sigma (np_sqrt T) = NaN.
Proof.
  intros HT. unfold np_d1, np_sqrt.
  destruct (Rle_dec 0 T) as [H0|_]; [exfalso; lra|].
  cbn [np_mul_py]. split; [|reflexivity].
  now destruct (np_add_py (np_log (S / K)) ((r + 0.5 * sigma ^ 2) * T)).
Qed.

Lemma priced_negative_maturity (p : pricer) (S K T sigma r : R) :
  T < 0 -> priced Phi p S K T sigma r = None.
Proof.
  intros HT. destruct (np_d1_negative_maturity S K T sigma r HT) as [E1 E2].
  unfold priced, np_d2. rewrite E1. destruct p; reflexivity.
Qed.

(** At zero maturity, with a positive volatility, the divisor is the
    positive zero: d1 is [inf] above the strike, [-inf] below it and [nan]
    at it. *)
Lemma np_divisor_at_expiry (sigma : R) :
  0 < sigma -> np_mul_py sigma (np_sqrt 0) = Fin 0.
Proof.
  intros Hs. unfold np_sqrt, np_mul_py.
  destruct (Rle_dec 0 0) as [_|n]; [|exfalso; lra].
  rewrite sqrt_0.
  destruct (Req_dec_T (sigma * 0) 0) as [_|n]; [|exfalso; lra].
  destruct (Rlt_dec sigma 0); [exfalso; lra|].
  destruct (Rlt_dec 0 0); [exfalso; lra|reflexivity].
Qed.

Lemma np_d1_at_expiry (S K sigma r : R) :
  0 < S -> 0 < K -> 0 < sigma ->
  np_d1 S K 0 sigma r
  = if Req_dec_T S K then NaN else if Rlt_dec S K then NegInf else PosInf.
Proof.
  intros HS HK Hs.
  assert (Hq : 0 < S / K) by (now apply Rdiv_lt_0_compat).
  unfold np_d1. rewrite (np_divisor_at_expiry sigma Hs). unfold np_log.
  destruct (Rlt_dec 0 (S / K)) as [_|n]; [|contradiction].
  cbn [np_add_py]. rewrite Rmult_0_r, Rplus_0_r.
  unfold np_div, np_is_zero, np_signbit.
  destruct (Req_dec_T 0 0) as [_|n]; [|contradiction].
  destruct (Rlt_dec 0 0) as [H0|_]; [exfalso; lra|].
  destruct (Req_dec_T S K) as [->|Hne].
  - replace (K / K) with 1 by (field; lra). rewrite ln_1.
    destruct (Req_dec_T 0 0); [reflexivity|contradiction].
  - destruct (Rlt_dec S K) as [Hlt|Hge].
    + assert (Hl : ln (S / K) < 0).
      { rewrite <- ln_1. apply ln_increasing; [assumption|].
        apply Rmult_lt_reg_r with K; [assumption|].
        replace (S / K * K) with S by (field; lra). lra. }
      destruct (Req_dec_T (ln (S / K)) 0); [exfalso; lra|].
      destruct (Rlt_dec (ln (S / K)) 0); [reflexivity|contradiction].
    + assert (Hl : 0 < ln (S / K)).
      { rewrite <- ln_1. apply ln_increasing; [lra|].
        apply Rmult_lt_reg_r with K; [assumption|].
        replace (S / K * K) with S by (field; lra). lra. }
      destruct (Req_dec_T (ln (S / K)) 0); [exfalso; lra|].
      destruct (Rlt_dec (ln (S / K)) 0); [exfalso; lra|reflexivity].
Qed.

(** So at zero maturity a pricer returns the payoff, and [nan] at the
    strike. *)
Lemma priced_at_expiry (p : pricer) (S K sigma r : R) :
  0 < S -> 0 < K -> 0 < sigma ->
  priced Phi p S K 0 sigma r = if Req_dec_T S K then None else Some (payoff p S K).
Proof.
  intros HS HK Hs. unfold priced, np_d2.
  rewrite (np_d1_at_expiry S K sigma r HS HK Hs), (np_divisor_at_expiry sigma Hs).
  rewrite Rmult_0_r, exp_0.
  destruct (Req_dec_T S K) as [_|Hne]; [destruct p; reflexivity|].
  destruct (Rlt_dec S K) as [Hlt|Hge]; destruct p; cbn; f_equal; unfold Rmax.
  - destruct (Rle_dec (S - K) 0); [ring|exfalso; lra].
  - destruct (Rle_dec (K - S) 0); [exfalso; lra|ring].
  - destruct (Rle_dec (S - K) 0); [exfalso; lra|ring].
  - destruct (Rle_dec (K - S) 0); [ring|exfalso; lra].
Qed.

(** Theta on a valid contract, with the pricer's value at the maturity
    [T - 1/252] left as it comes. *)
Lemma calculate_theta_result (self : OptionGreeksToolbox) (kind : string) (p : pricer) :
  pricer_of_kind kind = Some p ->
  valid_inputs (Attrs.S self) (Attrs.K self) (Attrs.T self) (Attrs.sigma self) ->
  result (calculate_theta Phi (Some kind) self)
  = Return (np_div_by
              (np_sub (priced Phi p (Attrs.S self) (Attrs.K self)
                         (Attrs.T self - 1 / 252) (Attrs.sigma self) (Attrs.r self))
                      (Some (spec_price Phi p (Attrs.S self) (Attrs.K self)
                               (Attrs.T self) (Attrs.sigma self) (Attrs.r self))))
              (1 / 252)).
Proof.
  intros Hk Hv. pose proof Hv as (HS & HKp & HT & Hs).
  rewrite (calculate_theta_run self kind p Hk). cbv zeta.
  destruct (Req_dec_T (Attrs.K self) 0) as [HK0|HK0]; [exfalso; lra|]. cbn [result].
  now rewrite (priced_valid p (Attrs.S self) (Attrs.K self) (Attrs.T self)).
Qed.

Lemma calculate_theta_nan (self : OptionGreeksToolbox) (kind : string) (p : pricer) :
  pricer_of_kind kind = Some p ->
  valid_inputs (Attrs.S self) (Attrs.K self) (Attrs.T self) (Attrs.sigma self) ->
  Attrs.T self < 1 / 252 \/ (Attrs.T self = 1 / 252 /\ Attrs.S self = Attrs.K self) ->
  result (calculate_theta Phi (Some kind) self) = Return None.
Proof.
  intros Hk Hv Hshort. pose proof Hv as (HS & HKp & HT & Hs).
  rewrite (calculate_theta_result self kind p Hk Hv).
  destruct Hshort as [Hlt|[Heq HSK]].
  - rewrite priced_negative_maturity by lra. reflexivity.
  - replace (Attrs.T self - 1 / 252) with 0 by lra.
    rewrite (priced_at_expiry p _ _ _ _ HS HKp Hs).
    destruct (Req_dec_T (Attrs.S self) (Attrs.K self)); [reflexivity|contradiction].
Qed.

(** C10: with spot, strike, volatility and maturity positive, theta runs
    the pricer at the maturity [T - 1/252].  When [T <= 1/252] that maturity
    is not positive, the divisor [sigma * sqrt T] the pricer forms there is
    zero or [nan] and d1 is no finite number: theta is computed inside the
    pricer's domain exactly when [1/252 < T], and is then the difference of
    the written formula.  [1/252 < T] is also the condition on the maturity
    under which theta is a number for every valid spot, strike, volatility
    and rate.  Outside it numpy raises nothing: theta is [nan] for
    [T < 1/252]; at [T = 1/252] it is [nan] when the spot is the strike and
    otherwise the payoff less the price, over 1/252. *)
Theorem theta_needs_more_than_a_day
  (self : OptionGreeksToolbox) (kind : string) (p : pricer) :
  pricer_of_kind kind = Some p ->
  valid_inputs (Attrs.S self) (Attrs.K self) (Attrs.T self) (Attrs.sigma self) ->
  let S := Attrs.S self in
  let K := Attrs.K self in
  let T := Attrs.T self in
  let sigma := Attrs.sigma self in
  let r := Attrs.r self in
  let theta := result (calculate_theta Phi (Some kind) self) in
  In (Invoke p S (T - 1 / 252) sigma) (calls (calculate_theta Phi (Some kind) self))
  /\ (T <= 1 / 252 ->
      T - 1 / 252 <= 0
      /\ (np_mul_py sigma (np_sqrt (T - 1 / 252)) = Fin 0
          \/ np_mul_py sigma (np_sqrt (T - 1 / 252)) = NaN)
      /\ np_real (np_d1 S K (T - 1 / 252) sigma r) = None)
  /\ ((exists x, np_real (np_d1 S K (T - 1 / 252) sigma r) = Some x) <-> 1 / 252 < T)
  /\ ((forall other : OptionGreeksToolbox,
         Attrs.T other = T ->
         valid_inputs (Attrs.S other) (Attrs.K other) (Attrs.T other)
           (Attrs.sigma other) ->
         exists x, result (calculate_theta Phi (Some kind) other) = Return (Some x))
      <-> 1 / 252 < T)
  /\ (1 / 252 < T ->
      theta = Return (Some ((spec_price Phi p S K (T - 1 / 252) sigma r
                             - spec_price Phi p S K T sigma r) / (1 / 252))))
  /\ (T < 1 / 252 -> theta = Return None)
  /\ (T = 1 / 252 -> S = K -> theta = Return None)
  /\ (T = 1 / 252 -> S <> K ->
      theta = Return (Some ((payoff p S K - spec_price Phi p S K T sigma r)
                            / (1 / 252)))).
Proof.
  intros Hk Hv S K T sigma r theta. pose proof Hv as (HS & HKp & HT & Hs).
  fold S K T sigma in HS, HKp, HT, Hs.
  assert (Hdom : T <= 1 / 252 ->
                 (np_mul_py sigma (np_sqrt (T - 1 / 252)) = Fin 0
                  \/ np_mul_py sigma (np_sqrt (T - 1 / 252)) = NaN)
                 /\ np_real (np_d1 S K (T - 1 / 252) sigma r) = None).
  { intros [Hlt|Heq].
    - destruct (np_d1_negative_maturity S K (T - 1 / 252) sigma r ltac:(lra)) as [E1 E2].
      rewrite E1, E2. split; [now right|reflexivity].
    - replace (T - 1 / 252) with 0 by lra.
      rewrite (np_d1_at_expiry S K sigma r HS HKp Hs), (np_divisor_at_expiry sigma Hs).
      split; [now left|].
      destruct (Req_dec_T S K); [reflexivity|]. now destruct (Rlt_dec S K). }
  split; [|split; [|split; [|split; [|split; [|split; [|split]]]]]].
  - rewrite (calculate_theta_run self kind p Hk). cbv zeta. fold S K T sigma r.
    destruct (Req_dec_T K 0) as [HK0|HK0]; [exfalso; lra|]. left; reflexivity.
  - intros Hle. split; [lra|]. now apply Hdom.
  - split.
    + intros [x Hx]. destruct (Rlt_dec (1 / 252) T) as [|Hn]; [assumption|].
      destruct (Hdom ltac:(lra)) as [_ E]. rewrite E in Hx. discriminate.
    + intros Hlt. eexists.
      apply np_d1_finite; [now apply Rdiv_lt_0_compat|lra|lra].
  - split.
    + intros Hall. destruct (Rlt_dec (1 / 252) T) as [|Hn]; [assumption|].
      exfalso.
      assert (Hv1 : valid_inputs 1 1 T 1) by (unfold valid_inputs; lra).
      destruct (Hall (__init__ 1 1 T 1 0) eq_refl Hv1) as [x Hx].
      rewrite (calculate_theta_nan (__init__ 1 1 T 1 0) kind p Hk Hv1) in Hx;
        [discriminate|].
      cbn [__init__ Attrs.S Attrs.K Attrs.T]. lra.
    + intros Hlt other HTo Hvo. eexists.
      apply (calculate_theta_valid other kind p Hk Hvo). rewrite HTo. exact Hlt.
  - intros Hlt. unfold theta.
    exact (calculate_theta_valid self kind p Hk Hv Hlt).
  - intros Hlt. unfold theta. apply (calculate_theta_nan self kind p Hk Hv).
    left. exact Hlt.
  - intros HT1 HSK. unfold theta. apply (calculate_theta_nan self kind p Hk Hv).
    right. split; assumption.
  - intros HT1 HSK. unfold theta.
    rewrite (calculate_theta_result self kind p Hk Hv). fold S K T sigma r.
    replace (T - 1 / 252) with 0 by lra.
    rewrite (priced_at_expiry p S K sigma r HS HKp Hs).
    destruct (Req_dec_T S K); [contradiction|].
    cbn [np_sub nbind]. now rewrite np_div_by_some by lra.
Qed.

(** *** Put-call parity *)

Section Parity.

Hypothesis Phi_sym : forall x, Phi x + Phi (- x) = 1.

(** C1: on valid effective inputs both pricers return a number and the
    call price minus the put price is [S - K * exp (- r * T)], given that
    [Phi x + Phi (- x) = 1]. *)
Theorem put_call_parity (self : OptionGreeksToolbox) (So To sigo : option R) :
  let S := or_default So (Attrs.S self) in
  let T := or_default To (Attrs.T self) in
  let sigma := or_default sigo (Attrs.sigma self) in
  valid_inputs S (Attrs.K self) T sigma ->
  exists c p,
    result (black_scholes_european_call Phi So To sigo self) = Return (Some c)
    /\ result (black_scholes_european_put Phi So To sigo self) = Return (Some p)
    /\ c - p = S - Attrs.K self * exp (- Attrs.r self * T).
Proof.
  intros S T sigma Hv.
  exists (spec_call Phi S (Attrs.K self) T sigma (Attrs.r self)),
         (spec_put Phi S (Attrs.K self) T sigma (Attrs.r self)).
  split; [|split].
  - change (black_scholes_european_call Phi) with (price CallPricer).
    rewrite price_with_run. cbv zeta. cbn [result].
    now rewrite pricer_result_valid.
  - change (black_scholes_european_put Phi) with (price PutPricer).
    rewrite price_with_run. cbv zeta. cbn [result].
    now rewrite pricer_result_valid.
  - unfold spec_call, spec_put.
    pose proof (Phi_sym (spec_d1 S (Attrs.K self) T sigma (Attrs.r self))) as H1.
    pose proof (Phi_sym (spec_d2 S (Attrs.K self) T sigma (Attrs.r self))) as H2.
    set (E := exp (- Attrs.r self * T)) in *.
    set (a := Phi (spec_d1 S (Attrs.K self) T sigma (Attrs.r self))) in *.
    set (b := Phi (spec_d2 S (Attrs.K self) T sigma (Attrs.r self))) in *.
    set (a' := Phi (- spec_d1 S (Attrs.K self) T sigma (Attrs.r self))) in *.
    set (b' := Phi (- spec_d2 S (Attrs.K self) T sigma (Attrs.r self))) in *.
    replace a' with (1 - a) by lra. replace b' with (1 - b) by lra. ring.
Qed.

End Parity.

(** *** Monotonicity in the spot *)

Section Monotone.

(** What the proof uses of [norm.cdf]: its density is the Gaussian kernel
    up to a constant factor (which is [1 / sqrt (2 * PI)]), and it is never
    negative. *)
Variable c_phi : R.
Hypothesis Phi_density :
  forall x, derivable_pt_lim Phi x (c_phi * exp (- x ^ 2 / 2)).
Hypothesis Phi_nonneg : forall x, 0 <= Phi x.

Section SpotDerivative.

Variables K T sigma r : R.
Hypothesis HK : 0 < K.
Hypothesis HT : 0 < T.
Hypothesis Hs : 0 < sigma.

Lemma vol_sqrt_pos : 0 < sigma * sqrt T.
Proof. apply Rmult_lt_0_compat; [assumption|now apply sqrt_lt_R0]. Qed.

Lemma spec_d1_deriv (S : R) :
  0 < S ->
  derivable_pt_lim (fun S => spec_d1 S K T sigma r) S (/ (S * (sigma * sqrt T))).
Proof.
  intros HS. pose proof vol_sqrt_pos as Hv.
  pose proof (sqrt_lt_R0 T HT) as Hr.
  unfold spec_d1.
  apply derivable_pt_lim_eq with (l := (/ (S / K) * (1 / K) + 0) / (sigma * sqrt T));
    [|field; repeat split; lra].
  refine (derivable_pt_lim_div_scal
            (fun S => ln (S / K) + (r + 0.5 * sigma ^ 2) * T) S _ (sigma * sqrt T) _).
  refine (derivable_pt_lim_plus (fun S => ln (S / K))
            (fct_cte ((r + 0.5 * sigma ^ 2) * T)) S _ 0 _ (derivable_pt_lim_const _ S)).
  refine (derivable_pt_lim_comp (fun S => S / K) ln S (1 / K) (/ (S / K)) _ _).
  - exact (derivable_pt_lim_div_scal id S 1 K (derivable_pt_lim_id S)).
  - apply derivable_pt_lim_ln. now apply Rdiv_lt_0_compat.
Qed.

Lemma spec_d2_deriv (S : R) :
  0 < S ->
  derivable_pt_lim (fun S => spec_d2 S K T sigma r) S (/ (S * (sigma * sqrt T))).
Proof.
  intros HS. unfold spec_d2.
  apply derivable_pt_lim_eq with (l := / (S * (sigma * sqrt T)) - 0); [|lra].
  exact (derivable_pt_lim_minus (fun S => spec_d1 S K T sigma r)
           (fct_cte (sigma * sqrt T)) S _ 0 (spec_d1_deriv S HS)
           (derivable_pt_lim_const _ S)).
Qed.

(** The discounted strike weighs the density at d2 as the spot weighs the
    density at d1. *)
Lemma density_balance (S : R) :
  0 < S ->
  S * exp (- spec_d1 S K T sigma r ^ 2 / 2)
  = K * exp (- r * T) * exp (- spec_d2 S K T sigma r ^ 2 / 2).
Proof.
  intros HS. pose proof vol_sqrt_pos as Hv.
  assert (Hvv : (sigma * sqrt T) * (sigma * sqrt T) = sigma ^ 2 * T).
  { transitivity (sigma ^ 2 * (sqrt T * sqrt T)); [ring|].
    rewrite sqrt_sqrt by lra. reflexivity. }
  assert (Hd : spec_d1 S K T sigma r * (sigma * sqrt T)
               = ln (S / K) + (r + 0.5 * sigma ^ 2) * T).
  { pose proof (sqrt_lt_R0 T HT). unfold spec_d1. field. split; lra. }
  assert (Hsq : - spec_d2 S K T sigma r ^ 2 / 2
                = - spec_d1 S K T sigma r ^ 2 / 2 + (ln (S / K) + r * T)).
  { unfold spec_d2.
    transitivity (- spec_d1 S K T sigma r ^ 2 / 2
                  + (spec_d1 S K T sigma r * (sigma * sqrt T)
                     - (sigma * sqrt T) * (sigma * sqrt T) / 2)); [field|].
    rewrite Hd, Hvv. lra. }
  rewrite Hsq, !exp_plus, exp_ln by (now apply Rdiv_lt_0_compat).
  rewrite <- Ropp_mult_distr_l, exp_Ropp.
  pose proof (exp_pos (r * T)). field. split; lra.
Qed.

Lemma spec_call_deriv (S : R) :
  0 < S ->
  derivable_pt_lim (fun S => spec_call Phi S K T sigma r) S
    (Phi (spec_d1 S K T sigma r)).
Proof.
  intros HS. pose proof vol_sqrt_pos as Hv.
  pose proof (density_balance S HS) as Hb.
  unfold spec_call.
  set (D := K * exp (- r * T)) in *.
  set (E1 := exp (- spec_d1 S K T sigma r ^ 2 / 2)) in *.
  set (E2 := exp (- spec_d2 S K T sigma r ^ 2 / 2)) in *.
  apply derivable_pt_lim_eq
    with (l := (1 * Phi (spec_d1 S K T sigma r)
                + S * (c_phi * E1 * / (S * (sigma * sqrt T))))
               - D * (c_phi * E2 * / (S * (sigma * sqrt T)))).
  - refine (derivable_pt_lim_minus
              (fun S => S * Phi (spec_d1 S K T sigma r))
              (fun S => D * Phi (spec_d2 S K T sigma r)) S _ _ _ _).
    + refine (derivable_pt_lim_mult id (fun S => Phi (spec_d1 S K T sigma r))
                S 1 _ (derivable_pt_lim_id S) _).
      exact (derivable_pt_lim_comp (fun S => spec_d1 S K T sigma r) Phi S _ _
               (spec_d1_deriv S HS) (Phi_density _)).
    + refine (derivable_pt_lim_scal (fun S => Phi (spec_d2 S K T sigma r)) D S _ _).
      exact (derivable_pt_lim_comp (fun S => spec_d2 S K T sigma r) Phi S _ _
               (spec_d2_deriv S HS) (Phi_density _)).
  - transitivity (Phi (spec_d1 S K T sigma r)
                  + c_phi * / (S * (sigma * sqrt T)) * (S * E1 - D * E2)); [ring|].
    rewrite Hb. ring.
Qed.

Lemma spec_put_deriv (S : R) :
  0 < S ->
  derivable_pt_lim (fun S => spec_put Phi S K T sigma r) S
    (- Phi (- spec_d1 S K T sigma r)).
Proof.
  intros HS. pose proof vol_sqrt_pos as Hv.
  pose proof (density_balance S HS) as Hb.
  unfold spec_put.
  set (D := K * exp (- r * T)) in *.
  assert (Hneg : forall x, - (- x) ^ 2 / 2 = - x ^ 2 / 2) by (intros; field).
  assert (Hopp : forall (f : R -> R) l,
             derivable_pt_lim f S l ->
             derivable_pt_lim (fun S => Phi (- f S)) S
               (c_phi * exp (- f S ^ 2 / 2) * - l)).
  { intros f l Hf. rewrite <- Hneg.
    exact (derivable_pt_lim_comp (fun S => - f S) Phi S _ _
             (derivable_pt_lim_opp f S l Hf) (Phi_density _)). }
  set (E1 := exp (- spec_d1 S K T sigma r ^ 2 / 2)) in *.
  set (E2 := exp (- spec_d2 S K T sigma r ^ 2 / 2)) in *.
  apply derivable_pt_lim_eq
    with (l := D * (c_phi * E2 * - / (S * (sigma * sqrt T)))
               - (1 * Phi (- spec_d1 S K T sigma r)
                  + S * (c_phi * E1 * - / (S * (sigma * sqrt T))))).
  - refine (derivable_pt_lim_minus
              (fun S => D * Phi (- spec_d2 S K T sigma r))
              (fun S => S * Phi (- spec_d1 S K T sigma r)) S _ _ _ _).
    + refine (derivable_pt_lim_scal (fun S => Phi (- spec_d2 S K T sigma r)) D S _ _).
      exact (Hopp _ _ (spec_d2_deriv S HS)).
    + refine (derivable_pt_lim_mult id (fun S => Phi (- spec_d1 S K T sigma r))
                S 1 _ (derivable_pt_lim_id S) _).
      exact (Hopp _ _ (spec_d1_deriv S HS)).
  - transitivity (- Phi (- spec_d1 S K T sigma r)
                  + c_phi * / (S * (sigma * sqrt T)) * (S * E1 - D * E2)); [ring|].
    rewrite Hb. ring.
Qed.

Lemma spec_call_nondecreasing (S1 S2 : R) :
  0 < S1 <= S2 ->
  spec_call Phi S1 K T sigma r <= spec_call Phi S2 K T sigma r.
Proof.
  intros [H1 [Hlt|<-]]; [|apply Rle_refl].
  destruct (MVT_cor2 (fun S => spec_call Phi S K T sigma r)
              (fun S => Phi (spec_d1 S K T sigma r)) S1 S2 Hlt) as (c & Hc & Hin).
  { intros c Hc. apply spec_call_deriv. lra. }
  pose proof (Phi_nonneg (spec_d1 c K T sigma r)).
  assert (0 <= Phi (spec_d1 c K T sigma r) * (S2 - S1)) by (apply Rmult_le_pos; lra).
  lra.
Qed.

Lemma spec_put_nonincreasing (S1 S2 : R) :
  0 < S1 <= S2 ->
  spec_put Phi S2 K T sigma r <= spec_put Phi S1 K T sigma r.
Proof.
  intros [H1 [Hlt|<-]]; [|apply Rle_refl].
  destruct (MVT_cor2 (fun S => spec_put Phi S K T sigma r)
              (fun S => - Phi (- spec_d1 S K T sigma r)) S1 S2 Hlt) as (c & Hc & Hin).
  { intros c Hc. apply spec_put_deriv. lra. }
  pose proof (Phi_nonneg (- spec_d1 c K T sigma r)).
  assert (0 <= Phi (- spec_d1 c K T sigma r) * (S2 - S1)) by (apply Rmult_le_pos; lra).
  lra.
Qed.

End SpotDerivative.

(** Both pricers return numbers at both spots, ordered as the spots are
    for the call and the other way round for the put. *)
Lemma price_monotone_for_density (self : OptionGreeksToolbox) (S1 S2 : R) :
  0 < Attrs.K self -> 0 < Attrs.T self -> 0 < Attrs.sigma self ->
  0 < S1 <= S2 ->
  exists c1 c2 p1 p2,
    result (black_scholes_european_call Phi (Some S1) None None self) = Return (Some c1)
    /\ result (black_scholes_european_call Phi (Some S2) None None self) = Return (Some c2)
    /\ c1 <= c2
    /\ result (black_scholes_european_put Phi (Some S1) None None self) = Return (Some p1)
    /\ result (black_scholes_european_put Phi (Some S2) None None self) = Return (Some p2)
    /\ p2 <= p1.
Proof.
  intros HK HT Hs HS.
  exists (spec_call Phi S1 (Attrs.K self) (Attrs.T self) (Attrs.sigma self) (Attrs.r self)),
         (spec_call Phi S2 (Attrs.K self) (Attrs.T self) (Attrs.sigma self) (Attrs.r self)),
         (spec_put Phi S1 (Attrs.K self) (Attrs.T self) (Attrs.sigma self) (Attrs.r self)),
         (spec_put Phi S2 (Attrs.K self) (Attrs.T self) (Attrs.sigma self) (Attrs.r self)).
  change (black_scholes_european_call Phi) with (price CallPricer).
  change (black_scholes_european_put Phi) with (price PutPricer).
  rewrite !price_with_run. cbv zeta. cbn [result or_default].
  rewrite !pricer_result_valid by (repeat split; lra).
  repeat split.
  - now apply spec_call_nondecreasing.
  - now apply spec_put_nonincreasing.
Qed.

End Monotone.

End Properties.

(** ** The standard normal distribution function *)

(** [norm_cdf] is symmetric, its density is the Gaussian kernel over
    [sqrt (2 * PI)], and it is never negative; the last is the Gaussian
    integral, [gauss_area x ^ 2 <= PI / 2]. *)

Section AreaFacts.

Variable f : R -> R.
Hypothesis f_cont : forall x, continuity_pt f x.

Lemma area_same (a : R) : area f f_cont a a = 0.
Proof. apply RiemannInt_P9. Qed.

Lemma area_deriv (a x : R) : derivable_pt_lim (area f f_cont a) x (f x).
Proof.
  assert (h : x - 1 <= x + 1) by lra.
  pose (C0 := fun (y : R) (_ : x - 1 <= y <= x + 1) => f_cont y).
  apply derivable_pt_lim_locally_ext
    with (f := fun y => area f f_cont a (x - 1) + primitive h (FTC_P1 h C0) y)
         (a := x - 1) (b := x + 1); [lra| |].
  - intros y Hy. unfold primitive, area.
    destruct (Rle_dec (x - 1) y) as [H1|H1]; [|exfalso; lra].
    destruct (Rle_dec y (x + 1)) as [H2|H2]; [|exfalso; lra].
    apply RiemannInt_P26.
  - apply derivable_pt_lim_eq with (l := 0 + f x); [|lra].
    refine (derivable_pt_lim_plus (fct_cte _) _ x 0 _ (derivable_pt_lim_const _ x) _).
    apply RiemannInt_P28. lra.
Qed.

End AreaFacts.

Lemma gauss_area_0 : gauss_area 0 = 0.
Proof. apply area_same. Qed.

Lemma gauss_area_deriv (x : R) : derivable_pt_lim gauss_area x (gauss_kernel x).
Proof. apply area_deriv. Qed.


Lemma gauss_kernel_even (x : R) : gauss_kernel (- x) = gauss_kernel x.
Proof. unfold gauss_kernel. f_equal. field. Qed.

Lemma gauss_area_odd (x : R) : gauss_area (- x) = - gauss_area x.
Proof.
  assert (D : forall y, derivable_pt_lim (fun y => gauss_area y + gauss_area (- y)) y
                          ((fun _ => 0) y)).
  { intros y.
    apply derivable_pt_lim_eq with (l := gauss_kernel y + gauss_kernel (- y) * - 1);
      [|rewrite gauss_kernel_even; ring].
    refine (derivable_pt_lim_plus gauss_area (fun y => gauss_area (- y)) y _ _
              (gauss_area_deriv y) _).
    refine (derivable_pt_lim_comp (fun y => - y) gauss_area y _ _ _ (gauss_area_deriv _)).
    exact (derivable_pt_lim_opp id y 1 (derivable_pt_lim_id y)). }
  assert (H0 : gauss_area 0 + gauss_area (- 0) = 0)
    by (rewrite Ropp_0, gauss_area_0; lra).
  destruct (Rtotal_order x 0) as [Hx|[->|Hx]].
  - destruct (MVT_cor2 _ _ x 0 Hx (fun c _ => D c)) as (c & Hc & _). lra.
  - rewrite Ropp_0, gauss_area_0. lra.
  - destruct (MVT_cor2 _ _ 0 x Hx (fun c _ => D c)) as (c & Hc & _). lra.
Qed.

(** A function whose derivative vanishes everywhere is constant. *)
Lemma null_derivative_const (F : R -> R) :
  (forall x, derivable_pt_lim F x 0) -> forall a b, F a = F b.
Proof.
  intros D a b.
  destruct (Rtotal_order a b) as [H|[->|H]]; [|reflexivity|].
  - destruct (MVT_cor2 F (fun _ => 0) a b H (fun c _ => D c)) as (c & Hc & _). lra.
  - destruct (MVT_cor2 F (fun _ => 0) b a H (fun c _ => D c)) as (c & Hc & _). lra.
Qed.

(** A function whose derivative lies in [[lo, hi]] moves accordingly. *)
Lemma bounded_derivative (F F' : R -> R) (lo hi a b : R) :
  (forall x, derivable_pt_lim F x (F' x)) ->
  (forall x, lo <= F' x <= hi) ->
  a <= b ->
  lo * (b - a) <= F b - F a <= hi * (b - a).
Proof.
  intros D B [H|<-]; [|lra].
  destruct (MVT_cor2 F F' a b H (fun c _ => D c)) as (c & Hc & _).
  rewrite Hc. pose proof (B c). nra.
Qed.

Lemma area_antiderivative (f : R -> R) (Hf : forall x, continuity_pt f x)
  (F : R -> R) (a b : R) :
  (forall x, derivable_pt_lim F x (f x)) ->
  area f Hf a b = F b - F a.
Proof.
  intros D.
  assert (H : forall y, derivable_pt_lim (fun y => area f Hf a y - F y) y 0).
  { intros y. apply derivable_pt_lim_eq with (l := f y - f y); [|lra].
    exact (derivable_pt_lim_minus _ _ y _ _ (area_deriv f Hf a y) (D y)). }
  pose proof (null_derivative_const _ H a b) as E. cbv beta in E.
  rewrite area_same in E. lra.
Qed.

Lemma taylor_second_order (F F1 F2 : R -> R) (M : R) :
  (forall x, derivable_pt_lim F x (F1 x)) ->
  (forall x, derivable_pt_lim F1 x (F2 x)) ->
  (forall x, - M <= F2 x <= M) ->
  forall x h, - (M * h ^ 2) <= F (x + h) - F x - h * F1 x <= M * h ^ 2.
Proof.
  intros D1 D2 B x h.
  assert (L : forall c, x <= c -> - (M * (c - x)) <= F1 c - F1 x <= M * (c - x)).
  { intros c Hc. pose proof (bounded_derivative F1 F2 (- M) M x c D2 B Hc). lra. }
  assert (L' : forall c, c <= x -> - (M * (x - c)) <= F1 x - F1 c <= M * (x - c)).
  { intros c Hc. pose proof (bounded_derivative F1 F2 (- M) M c x D2 B Hc). lra. }
  assert (M0 : 0 <= M) by (pose proof (B 0); lra).
  assert (DG : forall y, derivable_pt_lim (fun y => F y - F1 x * y) y
                           ((fun y => F1 y - F1 x) y)).
  { intros y. apply derivable_pt_lim_eq with (l := F1 y - F1 x * 1); [|lra].
    refine (derivable_pt_lim_minus F (fun y => F1 x * y) y _ _ (D1 y) _).
    exact (derivable_pt_lim_scal id (F1 x) y 1 (derivable_pt_lim_id y)). }
  destruct (Rtotal_order h 0) as [Hh|[->|Hh]].
  - assert (Hlt : x + h < x) by lra.
    destruct (MVT_cor2 _ _ (x + h) x Hlt (fun c _ => DG c)) as (c & Hc & Hin).
    cbv beta in Hc. pose proof (L' c ltac:(lra)) as Hl.
    assert (Hm : M * (x - c) <= M * - h) by (apply Rmult_le_compat_l; lra).
    set (d := F1 x - F1 c) in *.
    assert (Hd : - (M * - h) <= d <= M * - h) by lra.
    assert (E : F (x + h) - F x - h * F1 x = d * - h).
    { transitivity (- (F x - F1 x * x - (F (x + h) - F1 x * (x + h)))); [ring|].
      rewrite Hc. unfold d. ring. }
    rewrite E. replace (M * h ^ 2) with (M * - h * - h) by ring.
    split.
    + replace (- (M * - h * - h)) with (- (M * - h) * - h) by ring.
      apply Rmult_le_compat_r; lra.
    + apply Rmult_le_compat_r; lra.
  - replace (x + 0) with x by lra. lra.
  - assert (Hlt : x < x + h) by lra.
    destruct (MVT_cor2 _ _ x (x + h) Hlt (fun c _ => DG c)) as (c & Hc & Hin).
    cbv beta in Hc. pose proof (L c ltac:(lra)) as Hl.
    assert (Hm : M * (c - x) <= M * h) by (apply Rmult_le_compat_l; lra).
    set (d := F1 c - F1 x) in *.
    assert (Hd : - (M * h) <= d <= M * h) by lra.
    assert (E : F (x + h) - F x - h * F1 x = d * h).
    { transitivity (F (x + h) - F1 x * (x + h) - (F x - F1 x * x)); [ring|].
      rewrite Hc. unfold d. ring. }
    rewrite E. replace (M * h ^ 2) with (M * h * h) by ring.
    split.
    + replace (- (M * h * h)) with (- (M * h) * h) by ring.
      apply Rmult_le_compat_r; lra.
    + apply Rmult_le_compat_r; lra.
Qed.

Section UnderIntegral.

Variables g g1 : R -> R -> R.
Hypothesis g_cont : forall x t, continuity_pt (g x) t.
Hypothesis g1_cont : forall x t, continuity_pt (g1 x) t.
Variable M : R.
Hypothesis taylor :
  forall x h t, - (M * h ^ 2) <= g (x + h) t - g x t - h * g1 x t <= M * h ^ 2.

Lemma deriv_under_integral (x : R) :
  derivable_pt_lim (fun x => area (g x) (g_cont x) 0 1) x
    (area (g1 x) (g1_cont x) 0 1).
Proof.
  assert (M0 : 0 <= M) by (pose proof (taylor 0 1 0); lra).
  intros eps Heps.
  assert (Hd : 0 < eps / (M + 1)) by (apply Rdiv_lt_0_compat; lra).
  exists (mkposreal _ Hd). intros h Hh0 Hh. cbn in Hh.
  set (J := fun x => area (g x) (g_cont x) 0 1).
  set (L := area (g1 x) (g1_cont x) 0 1).
  assert (B : - (M * h ^ 2) <= J (x + h) - J x - h * L <= M * h ^ 2).
  { pose (D := fun y => area (g (x + h)) (g_cont (x + h)) 0 y
                        - area (g x) (g_cont x) 0 y
                        - h * area (g1 x) (g1_cont x) 0 y).
    assert (DD : forall y, derivable_pt_lim D y
                             ((fun y => g (x + h) y - g x y - h * g1 x y) y)).
    { intros y. unfold D.
      refine (derivable_pt_lim_minus
                (fun y => area (g (x + h)) (g_cont (x + h)) 0 y
                          - area (g x) (g_cont x) 0 y)
                (fun y => h * area (g1 x) (g1_cont x) 0 y) y _ _ _ _).
      - exact (derivable_pt_lim_minus _ _ y _ _
                 (area_deriv _ (g_cont (x + h)) 0 y) (area_deriv _ (g_cont x) 0 y)).
      - exact (derivable_pt_lim_scal _ h y _ (area_deriv _ (g1_cont x) 0 y)). }
    pose proof (bounded_derivative D _ (- (M * h ^ 2)) (M * h ^ 2) 0 1 DD
                  (fun y => taylor x h y) ltac:(lra)) as E.
    unfold D in E. rewrite !area_same in E. unfold J, L. lra. }
  assert (Habs : Rabs (J (x + h) - J x - h * L) <= M * h ^ 2)
    by (apply Rabs_le; lra).
  change (Rabs ((J (x + h) - J x) / h - L) < eps).
  replace ((J (x + h) - J x) / h - L) with ((J (x + h) - J x - h * L) / h)
    by (field; assumption).
  unfold Rdiv. rewrite Rabs_mult, Rabs_inv.
  assert (Hhp : 0 < Rabs h) by (now apply Rabs_pos_lt).
  apply Rle_lt_trans with (M * Rabs h).
  - apply Rmult_le_reg_r with (Rabs h); [assumption|].
    replace (Rabs (J (x + h) - J x - h * L) * / Rabs h * Rabs h)
      with (Rabs (J (x + h) - J x - h * L)) by (field; lra).
    replace (M * Rabs h * Rabs h) with (M * h ^ 2); [assumption|].
    rewrite <- (pow2_abs h). ring.
  - apply Rle_lt_trans with (M * (eps / (M + 1))).
    + apply Rmult_le_compat_l; lra.
    + replace (M * (eps / (M + 1))) with (eps * (M / (M + 1))) by (field; lra).
      assert (M / (M + 1) < 1).
      { apply Rmult_lt_reg_r with (M + 1); [lra|].
        replace (M / (M + 1) * (M + 1)) with M by (field; lra). lra. }
      nra.
Qed.

End UnderIntegral.

(** *** The Gaussian integral *)

Lemma one_plus_sq_pos (t : R) : 0 < 1 + t ^ 2.
Proof. pose proof (pow2_ge_0 t). lra. Qed.

Lemma exp_sq_deriv (a x : R) :
  derivable_pt_lim (fun x => exp (- (x ^ 2 * a) / 2)) x
    (- (x * a) * exp (- (x ^ 2 * a) / 2)).
Proof.
  apply derivable_pt_lim_eq
    with (l := exp (- (x ^ 2 * a) / 2) * (- (INR 2 * x ^ pred 2 * a) / 2));
    [|simpl; field].
  refine (derivable_pt_lim_comp (fun x => - (x ^ 2 * a) / 2) exp x _ _ _
            (derivable_pt_lim_exp _)).
  refine (derivable_pt_lim_div_scal (fun x => - (x ^ 2 * a)) x _ 2 _).
  refine (derivable_pt_lim_opp (fun x => x ^ 2 * a) x _ _).
  exact (derivable_pt_lim_scal_right (fun x => x ^ 2) x _ a (derivable_pt_lim_pow x 2)).
Qed.

Lemma polar_g_deriv (t x : R) :
  derivable_pt_lim (fun x => polar_g x t) x (polar_g1 x t).
Proof.
  pose proof (one_plus_sq_pos t).
  unfold polar_g, polar_g1.
  apply derivable_pt_lim_eq
    with (l := - (x * (1 + t ^ 2)) * exp (- (x ^ 2 * (1 + t ^ 2)) / 2) / (1 + t ^ 2));
    [|field; lra].
  exact (derivable_pt_lim_div_scal _ x _ (1 + t ^ 2) (exp_sq_deriv (1 + t ^ 2) x)).
Qed.

Lemma polar_g1_deriv (t x : R) :
  derivable_pt_lim (fun x => polar_g1 x t) x (polar_g2 x t).
Proof.
  unfold polar_g1, polar_g2.
  apply derivable_pt_lim_eq
    with (l := - 1 * exp (- (x ^ 2 * (1 + t ^ 2)) / 2)
               + - x * (- (x * (1 + t ^ 2)) * exp (- (x ^ 2 * (1 + t ^ 2)) / 2)));
    [|ring].
  refine (derivable_pt_lim_mult (fun x => - x) _ x _ _ _ (exp_sq_deriv (1 + t ^ 2) x)).
  exact (derivable_pt_lim_opp id x 1 (derivable_pt_lim_id x)).
Qed.

Lemma polar_g2_bound (x t : R) : - 3 <= polar_g2 x t <= 3.
Proof.
  unfold polar_g2.
  set (u := x ^ 2 * (1 + t ^ 2)).
  assert (Hu : 0 <= u).
  { apply Rmult_le_pos; [apply pow2_ge_0|]. pose proof (one_plus_sq_pos t). lra. }
  replace (- u / 2) with (- (u / 2)) by field.
  assert (He : 1 + u / 2 <= exp (u / 2)).
  { destruct (Req_dec (u / 2) 0) as [->|Hn]; [rewrite exp_0; lra|].
    left. now apply exp_ineq1. }
  pose proof (exp_pos (- (u / 2))) as Hp.
  assert (Hinv : exp (- (u / 2)) * exp (u / 2) = 1).
  { rewrite <- exp_plus. replace (- (u / 2) + u / 2) with 0 by lra. apply exp_0. }
  assert (H1 : exp (- (u / 2)) <= 1) by nra.
  assert (H2 : u * exp (- (u / 2)) <= 2) by nra.
  split; nra.
Qed.

Lemma polar_taylor (x h t : R) :
  - (3 * h ^ 2) <= polar_g (x + h) t - polar_g x t - h * polar_g1 x t <= 3 * h ^ 2.
Proof.
  exact (taylor_second_order (fun x => polar_g x t) (fun x => polar_g1 x t)
           (fun x => polar_g2 x t) 3 (polar_g_deriv t) (polar_g1_deriv t)
           (fun x => polar_g2_bound x t) x h).
Qed.

Lemma polar_g_cont (x t : R) : continuity_pt (polar_g x) t.
Proof.
  pose proof (one_plus_sq_pos t). unfold polar_g. reg. lra.
Qed.

Lemma polar_g1_cont (x t : R) : continuity_pt (polar_g1 x) t.
Proof.
  unfold polar_g1. reg.
Qed.

Lemma polar_J_deriv (x : R) :
  derivable_pt_lim (fun x => area (polar_g x) (polar_g_cont x) 0 1) x (- gauss_kernel x * gauss_area x).
Proof.
  apply derivable_pt_lim_eq with (l := area (polar_g1 x) (polar_g1_cont x) 0 1).
  - exact (deriv_under_integral polar_g polar_g1 polar_g_cont polar_g1_cont 3
             polar_taylor x).
  - rewrite (area_antiderivative _ _ (fun t => - gauss_kernel x * gauss_area (x * t))).
    + rewrite Rmult_1_r, Rmult_0_r, gauss_area_0. ring.
    + intros t.
      apply derivable_pt_lim_eq with (l := - gauss_kernel x * (gauss_kernel (x * t) * x)).
      * refine (derivable_pt_lim_scal (fun t => gauss_area (x * t)) _ t _ _).
        refine (derivable_pt_lim_comp (fun t => x * t) gauss_area t _ _ _
                  (gauss_area_deriv _)).
        apply derivable_pt_lim_eq with (l := x * 1); [|ring].
        exact (derivable_pt_lim_scal id x t 1 (derivable_pt_lim_id t)).
      * unfold polar_g1, gauss_kernel.
        transitivity (- x * (exp (- x ^ 2 / 2) * exp (- (x * t) ^ 2 / 2))); [ring|].
        rewrite <- exp_plus. do 2 f_equal. field.
Qed.

Lemma polar_J_0 : area (polar_g 0) (polar_g_cont 0) 0 1 = PI / 4.
Proof.
  rewrite (area_antiderivative _ _ atan).
  - rewrite atan_1, atan_0. lra.
  - intros t. apply derivable_pt_lim_eq with (l := / (1 + t ^ 2)).
    + apply derivable_pt_lim_atan.
    + unfold polar_g. replace (- (0 ^ 2 * (1 + t ^ 2)) / 2) with 0 by field.
      rewrite exp_0. pose proof (one_plus_sq_pos t). field. lra.
Qed.

Lemma polar_J_nonneg (x : R) : 0 <= area (polar_g x) (polar_g_cont x) 0 1.
Proof.
  assert (H01 : 0 < 1) by lra.
  destruct (MVT_cor2 (area (polar_g x) (polar_g_cont x) 0) (polar_g x) 0 1 H01
              (fun c _ => area_deriv _ _ 0 c)) as (c & Hc & _).
  rewrite area_same in Hc.
  assert (0 < polar_g x c).
  { unfold polar_g. apply Rdiv_lt_0_compat; [apply exp_pos|apply one_plus_sq_pos]. }
  lra.
Qed.

Lemma gauss_area_sq (x : R) :
  gauss_area x ^ 2 / 2 + area (polar_g x) (polar_g_cont x) 0 1 = PI / 4.
Proof.
  assert (D : forall y, derivable_pt_lim
                          (fun y => gauss_area y ^ 2 / 2
                                    + area (polar_g y) (polar_g_cont y) 0 1) y 0).
  { intros y.
    apply derivable_pt_lim_eq
      with (l := (gauss_kernel y * gauss_area y + gauss_area y * gauss_kernel y) / 2
                 + - gauss_kernel y * gauss_area y); [|field].
    refine (derivable_pt_lim_plus (fun y => gauss_area y ^ 2 / 2) _ y _ _ _
              (polar_J_deriv y)).
    refine (derivable_pt_lim_div_scal (fun y => gauss_area y ^ 2) y _ 2 _).
    apply derivable_pt_lim_ext with (f := (gauss_area * gauss_area)%F).
    - intros z. unfold mult_fct. ring.
    - exact (derivable_pt_lim_mult _ _ y _ _ (gauss_area_deriv y) (gauss_area_deriv y)). }
  pose proof (null_derivative_const _ D x 0) as E. cbv beta in E.
  rewrite E, gauss_area_0, polar_J_0. field.
Qed.

(** [norm.cdf] is never negative. *)
Lemma norm_cdf_nonneg (x : R) : 0 <= norm_cdf x.
Proof.
  unfold norm_cdf.
  pose proof (gauss_area_sq x) as E. pose proof (polar_J_nonneg x) as HJ.
  pose proof PI_RGT_0 as Hpi.
  assert (Hs : 0 < sqrt (2 * PI)) by (apply sqrt_lt_R0; lra).
  assert (Hss : sqrt (2 * PI) * sqrt (2 * PI) = 2 * PI) by (apply sqrt_sqrt; lra).
  set (s := sqrt (2 * PI)) in *. set (A := gauss_area x) in *.
  assert (HA : (2 * A) ^ 2 <= s ^ 2) by nra.
  assert (Hlow : - s <= 2 * A).
  { destruct (Rle_dec (- s) (2 * A)) as [|n]; [assumption|]. exfalso. nra. }
  apply Rmult_le_reg_r with (2 * s); [lra|].
  replace ((1 / 2 + / s * A) * (2 * s)) with (s + 2 * A) by (field; lra).
  lra.
Qed.

Lemma norm_cdf_sym (x : R) : norm_cdf x + norm_cdf (- x) = 1.
Proof. unfold norm_cdf. rewrite gauss_area_odd. lra. Qed.

Lemma norm_cdf_density (x : R) :
  derivable_pt_lim norm_cdf x (/ sqrt (2 * PI) * exp (- x ^ 2 / 2)).
Proof.
  unfold norm_cdf.
  apply derivable_pt_lim_eq with (l := 0 + / sqrt (2 * PI) * gauss_kernel x);
    [|unfold gauss_kernel; lra].
  refine (derivable_pt_lim_plus (fct_cte (1 / 2))
            (fun x => / sqrt (2 * PI) * gauss_area x) x 0 _
            (derivable_pt_lim_const _ x) _).
  exact (derivable_pt_lim_scal gauss_area _ x _ (gauss_area_deriv x)).
Qed.

(** ** Monotonicity in the spot *)

(** C8: with strike, maturity and volatility positive and spots
    [0 < S1 <= S2], both pricers return numbers at both spots, the call
    price at [S1] is at most the one at [S2] and the put price at [S1] at
    least the one at [S2]; [norm.cdf] is the standard normal distribution
    function. *)
Theorem price_monotone_in_spot (self : OptionGreeksToolbox) (S1 S2 : R) :
  0 < Attrs.K self -> 0 < Attrs.T self -> 0 < Attrs.sigma self ->
  0 < S1 <= S2 ->
  exists c1 c2 p1 p2,
    result (black_scholes_european_call norm_cdf (Some S1) None None self)
    = Return (Some c1)
    /\ result (black_scholes_european_call norm_cdf (Some S2) None None self)
       = Return (Some c2)
    /\ c1 <= c2
    /\ result (black_scholes_european_put norm_cdf (Some S1) None None self)
       = Return (Some p1)
    /\ result (black_scholes_european_put norm_cdf (Some S2) None None self)
       = Return (Some p2)
    /\ p2 <= p1.
Proof.
  exact (price_monotone_for_density norm_cdf (/ sqrt (2 * PI)) norm_cdf_density
           norm_cdf_nonneg self S1 S2).
Qed.

(** ** The secant iteration *)

Lemma py_abs_arg_frame (v : pyval) (self : OptionGreeksToolbox) :
  self_after (py_abs_arg v self) = self.
Proof. destruct v as [[x|]|]; reflexivity. Qed.

Lemma secant_loop_frame (func : R -> M pyval) :
  (forall x s, self_after (func x s) = s) ->
  forall maxiter p0 q0 p1 q1 self,
    self_after (secant_loop maxiter func p0 q0 p1 q1 self) = self.
Proof.
  intros Hf. induction maxiter as [|n IH]; intros p0 q0 p1 q1 self; cbn [secant_loop].
  - reflexivity.
  - destruct (Req_dec_T q1 q0); [destruct (Req_dec_T p1 p0); reflexivity|].
    cbv zeta.
    match goal with |- context [Rle_dec ?a ?b] => destruct (Rle_dec a b) end;
      [reflexivity|].
    apply bind_frame; [apply Hf|intros v].
    apply bind_frame; [apply py_abs_arg_frame|intros q].
    apply IH.
Qed.

Lemma secant_newton_frame (func : R -> M pyval) (x0 : R) (self : OptionGreeksToolbox) :
  (forall x s, self_after (func x s) = s) ->
  self_after (secant_newton func x0 self) = self.
Proof.
  intros Hf. unfold secant_newton. cbv zeta.
  apply bind_frame; [apply Hf|intros v0].
  apply bind_frame; [apply Hf|intros v1].
  apply bind_frame; [apply py_abs_arg_frame|intros q1].
  apply bind_frame; [apply py_abs_arg_frame|intros q0].
  destruct (Rlt_dec (Rabs q1) (Rabs q0)); now apply secant_loop_frame.
Qed.

Lemma secant_newton_none (x0 : R) (self : OptionGreeksToolbox) :
  secant_newton (fun _ => ret PyNone) x0 self = Ran (Raise TypeError) self [].
Proof. reflexivity. Qed.

(** With the secant iteration as root finder, an unknown kind surfaces as
    a [TypeError], not as the invalid-argument error. *)
Lemma implied_volatility_straddle_type_error
  (Phi : R -> R) (self : OptionGreeksToolbox) (market_price : R) :
  calculate_implied_volatility Phi secant_newton market_price
    (Some "straddle"%string) self
  = Ran (Raise TypeError) self [].
Proof. reflexivity. Qed.

(** ** The theorems at the example contract *)

Lemma put_call_parity_witness :
  valid_inputs 100 100 1 0.2
  /\ exists c p,
      result (black_scholes_european_call norm_cdf None None None example_toolbox)
      = Return (Some c)
      /\ result (black_scholes_european_put norm_cdf None None None example_toolbox)
         = Return (Some p)
      /\ c - p = Attrs.S example_toolbox
                 - Attrs.K example_toolbox
                   * exp (- Attrs.r example_toolbox * Attrs.T example_toolbox).
Proof.
  assert (H : valid_inputs 100 100 1 0.2) by (unfold valid_inputs; lra).
  split; [exact H|].
  exact (put_call_parity norm_cdf norm_cdf_sym example_toolbox None None None H).
Defined.

Lemma calculate_delta_forward_difference_witness :
  pricer_of_kind "put" = Some PutPricer
  /\ result (calculate_delta norm_cdf (Some "put"%string) example_toolbox)
     = outcome_map2 (fun a b => np_div_by (np_sub a b) 0.001)
         (result (black_scholes_european_put norm_cdf (Some (100 + 0.001)) None None
                    example_toolbox))
         (result (black_scholes_european_put norm_cdf (Some 100) None None
                    example_toolbox)).
Proof.
  split; [reflexivity|].
  exact (proj1 (calculate_delta_forward_difference norm_cdf example_toolbox
                  "put" PutPricer eq_refl)).
Defined.

Lemma calculate_theta_backward_difference_witness :
  pricer_of_kind "call" = Some CallPricer
  /\ result (calculate_theta norm_cdf (Some "call"%string) example_toolbox)
     = outcome_map2 (fun a b => np_div_by (np_sub a b) (1 / 252))
         (result (black_scholes_european_call norm_cdf None (Some (1 - 1 / 252)) None
                    example_toolbox))
         (result (black_scholes_european_call norm_cdf None (Some 1) None
                    example_toolbox)).
Proof.
  split; [reflexivity|].
  exact (proj1 (calculate_theta_backward_difference norm_cdf example_toolbox
                  "call" CallPricer eq_refl)).
Defined.

Lemma stored_attributes_unchanged_witness :
  self_after (calculate_implied_volatility norm_cdf secant_newton 10
                (Some "call"%string) example_toolbox) = example_toolbox
  /\ self_after (calculate_gamma norm_cdf example_toolbox) = example_toolbox.
Proof.
  pose proof (stored_attributes_unchanged norm_cdf secant_newton
                secant_newton_frame example_toolbox) as (_ & _ & Hiv & _ & Hg & _).
  exact (conj (Hiv 10 (Some "call"%string)) Hg).
Defined.

Lemma price_monotone_in_spot_witness :
  0 < 90 <= 110
  /\ exists c1 c2 p1 p2,
      result (black_scholes_european_call norm_cdf (Some 90) None None
                example_toolbox) = Return (Some c1)
      /\ result (black_scholes_european_call norm_cdf (Some 110) None None
                   example_toolbox) = Return (Some c2)
      /\ c1 <= c2
      /\ result (black_scholes_european_put norm_cdf (Some 90) None None
                   example_toolbox) = Return (Some p1)
      /\ result (black_scholes_european_put norm_cdf (Some 110) None None
                   example_toolbox) = Return (Some p2)
      /\ p2 <= p1.
Proof.
  assert (HS : 0 < 90 <= 110) by lra.
  split; [exact HS|].
  apply (price_monotone_in_spot example_toolbox 90 110).
  - cbn. lra.
  - cbn. lra.
  - cbn. lra.
  - exact HS.
Defined.

Lemma theta_needs_more_than_a_day_witness :
  valid_inputs 100 100 (1 / 300) 0.2
  /\ result (calculate_theta norm_cdf (Some "call"%string) short_dated_toolbox)
     = Return None
  /\ np_d1 100 100 (1 / 300 - 1 / 252) 0.2 0.05 = NaN
  /\ valid_inputs 110 100 (1 / 252) 0.2
  /\ result (calculate_theta norm_cdf (Some "call"%string) expiry_day_toolbox)
     = Return (Some ((payoff CallPricer 110 100
                      - spec_call norm_cdf 110 100 (1 / 252) 0.2 0.05) / (1 / 252))).
Proof.
  assert (H : valid_inputs 100 100 (1 / 300) 0.2) by (unfold valid_inputs; lra).
  assert (H' : valid_inputs 110 100 (1 / 252) 0.2) by (unfold valid_inputs; lra).
  pose proof (theta_needs_more_than_a_day norm_cdf short_dated_toolbox
                "call" CallPricer eq_refl H) as Hth.
  pose proof (theta_needs_more_than_a_day norm_cdf expiry_day_toolbox
                "call" CallPricer eq_refl H') as Hday.
  cbv zeta in Hth, Hday.
  destruct Hth as (_ & _ & _ & _ & _ & Hshort & _).
  destruct Hday as (_ & _ & _ & _ & _ & _ & _ & Hday).
  split; [exact H|]. split; [apply Hshort; cbn; lra|].
  split; [apply np_d1_negative_maturity; lra|].
  split; [exact H'|]. apply Hday; cbn; lra.
Defined.

(** ** Further properties of the pricers *)

(** *** Where a pricer has a value *)

(** A pricer has no value where d1 is [nan]: below a zero ratio [S / K]
    and below a zero maturity. *)
Lemma priced_nan_d1 (Phi : R -> R) (p : pricer) (S K T sigma r : R) :
  np_d1 S K T sigma r = NaN -> priced Phi p S K T sigma r = None.
Proof.
  intros E. unfold priced, np_d2. rewrite E. destruct p; reflexivity.
Qed.

Lemma priced_negative_ratio (Phi : R -> R) (p : pricer) (S K T sigma r : R) :
  S / K < 0 -> priced Phi p S K T sigma r = None.
Proof.
  intros Hq. apply priced_nan_d1. unfold np_d1, np_log.
  destruct (Rlt_dec 0 (S / K)); [exfalso; lra|].
  destruct (Req_dec_T (S / K) 0); [exfalso; lra|].
  cbn [np_add_py]. now destruct (np_mul_py sigma (np_sqrt T)).
Qed.

(** From a zero maturity on, the divisor [sigma * np.sqrt(T)] is a finite
    number with the sign of the volatility, a signed zero included. *)
Lemma np_divisor_sign (T sigma : R) :
  0 <= T ->
  let d := np_mul_py sigma (np_sqrt T) in
  (d = NegZero \/ exists y, d = Fin y)
  /\ np_signbit d = (if Rlt_dec sigma 0 then true else false)
  /\ np_is_zero d = (if Req_dec_T (sigma * sqrt T) 0 then true else false).
Proof.
  intros HT. cbv zeta. pose proof (sqrt_pos T) as Hr.
  unfold np_sqrt, np_mul_py.
  destruct (Rle_dec 0 T) as [_|n]; [|contradiction].
  destruct (Req_dec_T (sigma * sqrt T) 0) as [e|ne].
  - destruct (Rlt_dec sigma 0) as [Hs|Hs]; [cbn; tauto|].
    destruct (Rlt_dec (sqrt T) 0); [exfalso; lra|].
    cbn. destruct (Rlt_dec 0 0); [exfalso; lra|].
    destruct (Req_dec_T 0 0); [|contradiction].
    repeat split. right. now exists 0.
  - cbn. destruct (Req_dec_T (sigma * sqrt T) 0); [contradiction|].
    split; [right; now eexists|]. split; [|reflexivity].
    destruct (Rlt_dec sigma 0) as [Hs|Hs];
      destruct (Rlt_dec (sigma * sqrt T) 0) as [Hp|Hp]; try reflexivity;
      exfalso; nra.
Qed.

(** With d1 an infinity, all the mass is on one side of the strike. *)
Lemma priced_at_infinity (Phi : R -> R) (p : pricer) (S K T sigma r : R) :
  0 <= T ->
  (np_d1 S K T sigma r = PosInf ->
   priced Phi p S K T sigma r
   = Some match p with
          | CallPricer => S - K * exp (- r * T)
          | PutPricer => 0
          end)
  /\ (np_d1 S K T sigma r = NegInf ->
      priced Phi p S K T sigma r
      = Some match p with
             | CallPricer => 0
             | PutPricer => K * exp (- r * T) - S
             end).
Proof.
  intros HT. destruct (np_divisor_sign T sigma HT) as ([Ed|[y Ed]] & _ & _).
  all: split; intros E; unfold priced, np_d2; rewrite E, Ed.
  all: destruct p; cbn; f_equal; ring.
Qed.

(** A zero spot: [np.log] is [-inf] and d1 an infinity against the sign
    of the volatility. *)
Lemma np_d1_zero_spot (S K T sigma r : R) :
  S / K = 0 -> 0 <= T ->
  np_d1 S K T sigma r = if Rlt_dec sigma 0 then PosInf else NegInf.
Proof.
  intros Hq HT. destruct (np_divisor_sign T sigma HT) as (Hd & Hsign & _).
  unfold np_d1, np_log. rewrite Hq.
  destruct (Rlt_dec 0 0); [exfalso; lra|].
  destruct (Req_dec_T 0 0); [|contradiction].
  cbn [np_add_py]. cbv zeta in Hd, Hsign.
  destruct Hd as [Ed|[y Ed]]; rewrite Ed in *; unfold np_div; rewrite Hsign;
    destruct (Rlt_dec sigma 0); reflexivity.
Qed.

(** A zero divisor under a positive [S / K]: d1 is [nan] where the
    numerator is zero too, and otherwise an infinity. *)
Lemma np_d1_zero_divisor (S K T sigma r : R) :
  0 < S / K -> 0 <= T -> sigma * sqrt T = 0 ->
  let n := ln (S / K) + (r + 0.5 * sigma ^ 2) * T in
  np_d1 S K T sigma r
  = if Req_dec_T n 0 then NaN
    else if Rlt_dec n 0 then (if Rlt_dec sigma 0 then PosInf else NegInf)
    else (if Rlt_dec sigma 0 then NegInf else PosInf).
Proof.
  intros Hq HT H0 n. destruct (np_divisor_sign T sigma HT) as (Hd & Hsign & Hzero).
  cbv zeta in Hd, Hsign, Hzero.
  destruct (Req_dec_T (sigma * sqrt T) 0) as [_|ne]; [|contradiction].
  unfold np_d1, np_log.
  destruct (Rlt_dec 0 (S / K)); [|contradiction].
  cbn [np_add_py]. fold n.
  destruct Hd as [Ed|[y Ed]]; rewrite Ed in *; unfold np_div; rewrite Hsign, Hzero;
    cbn [np_is_zero np_signbit];
    destruct (Req_dec_T n 0); try reflexivity;
    destruct (Rlt_dec n 0); destruct (Rlt_dec sigma 0); reflexivity.
Qed.


(** The sign of the numerator of d1 where the divisor is zero: that of
    the spot less the discounted strike. *)
Lemma ln_ratio_discounted (S K T r : R) :
  0 < S -> 0 < K ->
  ln (S / K) + r * T = ln (S / (K * exp (- r * T))).
Proof.
  intros HS HK. pose proof (exp_pos (- r * T)) as He.
  assert (HD : 0 < K * exp (- r * T)) by (now apply Rmult_lt_0_compat).
  unfold Rdiv. rewrite !ln_mult, !ln_Rinv, ln_mult, ln_exp;
    try assumption; try (now apply Rinv_0_lt_compat).
  ring.
Qed.

Lemma ln_ratio_sign (S D : R) :
  0 < S -> 0 < D ->
  (S < D -> ln (S / D) < 0) /\ (S = D -> ln (S / D) = 0) /\ (D < S -> 0 < ln (S / D)).
Proof.
  intros HS HD.
  assert (Hq : 0 < S / D) by (now apply Rdiv_lt_0_compat).
  assert (E : S / D * D = S) by (field; lra).
  repeat split; intros H.
  - rewrite <- ln_1. apply ln_increasing; [assumption|].
    apply Rmult_lt_reg_r with D; [assumption|]. lra.
  - subst S. replace (D / D) with 1 by (field; lra). apply ln_1.
  - rewrite <- ln_1. apply ln_increasing; [lra|].
    apply Rmult_lt_reg_r with D; [assumption|]. lra.
Qed.

(** On the edge of the documented domain, a zero spot, maturity or
    volatility, a pricer returns the payoff against the discounted strike,
    and [nan] where the spot is the discounted strike. *)
Lemma priced_on_edge (Phi : R -> R) (p : pricer) (S K T sigma r : R) :
  0 <= S -> 0 < K -> 0 <= T -> 0 <= sigma ->
  S = 0 \/ T = 0 \/ sigma = 0 ->
  priced Phi p S K T sigma r
  = if Req_dec_T S (K * exp (- r * T)) then None
    else Some (payoff p S (K * exp (- r * T))).
Proof.
  intros HS HK HT Hs Hedge.
  pose proof (exp_pos (- r * T)) as He.
  assert (HD : 0 < K * exp (- r * T)) by (now apply Rmult_lt_0_compat).
  destruct (priced_at_infinity Phi p S K T sigma r HT) as [Hup Hdown].
  destruct (Rlt_dec sigma 0) as [Hneg|Hpos] eqn:Esig; [exfalso; lra|].
  destruct (Req_dec_T S 0) as [HS0|HS0].
  - assert (Hq : S / K = 0) by (rewrite HS0; unfold Rdiv; ring).
    pose proof (np_d1_zero_spot S K T sigma r Hq HT) as E1. rewrite Esig in E1.
    rewrite (Hdown E1).
    destruct (Req_dec_T S (K * exp (- r * T))); [exfalso; lra|].
    f_equal. destruct p; unfold payoff, Rmax.
    + destruct (Rle_dec (S - K * exp (- r * T)) 0); [reflexivity|exfalso; lra].
    + destruct (Rle_dec (K * exp (- r * T) - S) 0); [exfalso; lra|reflexivity].
  - assert (HSp : 0 < S) by lra.
    assert (Hq : 0 < S / K) by (now apply Rdiv_lt_0_compat).
    assert (Hd : sigma * sqrt T = 0).
    { destruct Hedge as [H|[->| ->]]; [contradiction|rewrite sqrt_0; ring|ring]. }
    assert (Hn : ln (S / K) + (r + 0.5 * sigma ^ 2) * T
                 = ln (S / (K * exp (- r * T)))).
    { rewrite <- ln_ratio_discounted by assumption. f_equal.
      destruct Hedge as [H|[->| ->]]; [contradiction|ring|ring]. }
    pose proof (np_d1_zero_divisor S K T sigma r Hq HT Hd) as E1. cbv zeta in E1.
    rewrite Hn, Esig in E1.
    destruct (ln_ratio_sign S (K * exp (- r * T)) HSp HD) as (Hlt & Heq & Hgt).
    destruct (Req_dec_T S (K * exp (- r * T))) as [e|ne].
    + apply priced_nan_d1. rewrite E1.
      destruct (Req_dec_T (ln (S / (K * exp (- r * T)))) 0) as [_|n0];
        [reflexivity|]. exfalso. now apply n0, Heq.
    + destruct (Rlt_dec S (K * exp (- r * T))) as [Hl|Hg].
      * specialize (Hlt Hl).
        destruct (Req_dec_T (ln (S / (K * exp (- r * T)))) 0); [exfalso; lra|].
        destruct (Rlt_dec (ln (S / (K * exp (- r * T)))) 0); [|contradiction].
        rewrite (Hdown E1). f_equal. destruct p; unfold payoff, Rmax.
        -- destruct (Rle_dec (S - K * exp (- r * T)) 0); [reflexivity|exfalso; lra].
        -- destruct (Rle_dec (K * exp (- r * T) - S) 0); [exfalso; lra|reflexivity].
      * assert (Hg' : K * exp (- r * T) < S) by lra. specialize (Hgt Hg').
        destruct (Req_dec_T (ln (S / (K * exp (- r * T)))) 0); [exfalso; lra|].
        destruct (Rlt_dec (ln (S / (K * exp (- r * T)))) 0); [exfalso; lra|].
        rewrite (Hup E1). f_equal. destruct p; unfold payoff, Rmax.
        -- destruct (Rle_dec (S - K * exp (- r * T)) 0); [exfalso; lra|reflexivity].
        -- destruct (Rle_dec (K * exp (- r * T) - S) 0); [reflexivity|exfalso; lra].
Qed.


(** *** Negative volatility *)

Lemma spec_d1_neg_vol (S K T sigma r : R) :
  0 < T -> sigma <> 0 ->
  spec_d1 S K T (- sigma) r = - spec_d1 S K T sigma r.
Proof.
  intros HT Hs. pose proof (sqrt_lt_R0 T HT).
  unfold spec_d1. field. split; lra.
Qed.

Lemma spec_d2_neg_vol (S K T sigma r : R) :
  0 < T -> sigma <> 0 ->
  spec_d2 S K T (- sigma) r = - spec_d2 S K T sigma r.
Proof.
  intros HT Hs. unfold spec_d2. rewrite spec_d1_neg_vol by assumption. ring.
Qed.

(** With the volatility overridden by [- sigma], the call pricer returns
    minus the put price at [sigma] and the put pricer minus the call price
    at [sigma]. *)
Theorem negative_volatility_swaps_pricers (Phi : R -> R)
  (self : OptionGreeksToolbox) (sigma : R) :
  0 < Attrs.S self -> 0 < Attrs.K self -> 0 < Attrs.T self -> 0 < sigma ->
  exists c p,
    result (black_scholes_european_call Phi None None (Some sigma) self)
    = Return (Some c)
    /\ result (black_scholes_european_put Phi None None (Some sigma) self)
       = Return (Some p)
    /\ result (black_scholes_european_call Phi None None (Some (- sigma)) self)
       = Return (Some (- p))
    /\ result (black_scholes_european_put Phi None None (Some (- sigma)) self)
       = Return (Some (- c)).
Proof.
  intros HS HK HT Hs.
  assert (Hq : 0 < Attrs.S self / Attrs.K self) by (now apply Rdiv_lt_0_compat).
  exists (spec_call Phi (Attrs.S self) (Attrs.K self) (Attrs.T self) sigma (Attrs.r self)),
         (spec_put Phi (Attrs.S self) (Attrs.K self) (Attrs.T self) sigma (Attrs.r self)).
  change (black_scholes_european_call Phi) with (price_with Phi CallPricer).
  change (black_scholes_european_put Phi) with (price_with Phi PutPricer).
  rewrite !price_with_run. cbv zeta. cbn [result or_default].
  unfold pricer_result.
  destruct (Req_dec_T (Attrs.K self) 0); [exfalso; lra|].
  rewrite !priced_defined by lra. cbn [spec_price].
  unfold spec_call, spec_put.
  rewrite spec_d1_neg_vol, spec_d2_neg_vol by lra.
  rewrite !Ropp_involutive.
  repeat split; do 2 f_equal; ring.
Qed.

(** *** Scaling spot and strike *)

(** Prices are homogeneous of degree one in spot and strike: a contract
    with both multiplied by [k <> 0] has [k] times the price, is [nan] when
    the other is, and raises when the other does. *)
Theorem price_scales_with_spot_and_strike (Phi : R -> R) (p : pricer)
  (S K T sigma r k : R) :
  k <> 0 ->
  result (price_with Phi p None None None (__init__ (k * S) (k * K) T sigma r))
  = outcome_map (np_scale k)
      (result (price_with Phi p None None None (__init__ S K T sigma r))).
Proof.
  intros Hk. rewrite !price_with_run. cbv zeta. cbn [result or_default __init__ Attrs.S Attrs.K Attrs.T Attrs.sigma Attrs.r].
  unfold pricer_result.
  destruct (Req_dec_T K 0) as [HK|HK].
  - subst K. rewrite Rmult_0_r.
    destruct (Req_dec_T 0 0); [reflexivity|contradiction].
  - destruct (Req_dec_T (k * K) 0) as [e|_].
    + exfalso. apply Rmult_integral in e. tauto.
    + cbn [outcome_map]. f_equal.
      unfold priced, np_d2, np_d1.
      replace (k * S / (k * K)) with (S / K) by (field; tauto).
      fold (np_d1 S K T sigma r). fold (np_d2 S K T sigma r).
      unfold np_scale, nbind.
      destruct p.
      * destruct (norm_cdf_at Phi (np_d1 S K T sigma r)); [|reflexivity].
        destruct (norm_cdf_at Phi (np_d2 S K T sigma r)); [|reflexivity].
        f_equal; ring.
      * destruct (norm_cdf_at Phi (np_neg (np_d2 S K T sigma r))); [|reflexivity].
        destruct (norm_cdf_at Phi (np_neg (np_d1 S K T sigma r))); [|reflexivity].
        f_equal; ring.
Qed.

(** *** Zero strike *)

Lemma dispatcher_run (Phi : R -> R) (self : OptionGreeksToolbox)
  (kind : string) (p : pricer) :
  pricer_of_kind kind = Some p ->
  calculate_black_scholes_option_price Phi (Some kind) self
  = price_with Phi p None None None self.
Proof.
  intros H. apply pricer_of_kind_inv in H. destruct H as [[-> ->]|[-> ->]]; reflexivity.
Qed.

(** On a zero strike the dispatcher and all four Greeks raise
    [ZeroDivisionError], out of the first pricer run they make. *)
Theorem zero_strike_raises (Phi : R -> R) (self : OptionGreeksToolbox)
  (kind : string) (p : pricer) :
  pricer_of_kind kind = Some p ->
  Attrs.K self = 0 ->
  let stopped (m : M npfloat) :=
    result (m self) = Raise ZeroDivisionError /\ length (calls (m self)) = 1%nat in
  stopped (calculate_black_scholes_option_price Phi (Some kind))
  /\ stopped (calculate_delta Phi (Some kind))
  /\ stopped (calculate_gamma Phi)
  /\ stopped (calculate_theta Phi (Some kind))
  /\ stopped (calculate_vega Phi).
Proof.
  intros H HK. cbv beta zeta.
  rewrite (dispatcher_run Phi self kind p H), price_with_run,
    (calculate_delta_run Phi self kind p H), calculate_gamma_run,
    (calculate_theta_run Phi self kind p H), calculate_vega_run.
  cbv zeta. unfold pricer_result.
  destruct (Req_dec_T (Attrs.K self) 0); [|contradiction].
  repeat split.
Qed.

(** *** Gamma near a zero spot *)

(** X6: with spot, strike, maturity and volatility positive, gamma runs
    the call pricer at the spot [S - 0.001].  Below the step that spot is
    negative and gamma is [nan]; at the step it is zero, where the call
    pricer returns 0, and gamma is a number; above the step gamma is the
    second difference of the written formula.  So gamma is a number exactly
    when [0.001 <= S]. *)
Theorem gamma_needs_spot_at_least_step (Phi : R -> R) (self : OptionGreeksToolbox) :
  valid_inputs (Attrs.S self) (Attrs.K self) (Attrs.T self) (Attrs.sigma self) ->
  let S := Attrs.S self in
  let K := Attrs.K self in
  let T := Attrs.T self in
  let sigma := Attrs.sigma self in
  let r := Attrs.r self in
  let gamma := result (calculate_gamma Phi self) in
  In (Invoke CallPricer (S - 0.001) T sigma) (calls (calculate_gamma Phi self))
  /\ (S < 0.001 -> gamma = Return None)
  /\ (S = 0.001 ->
      result (black_scholes_european_call Phi (Some (S - 0.001)) None None self)
      = Return (Some 0)
      /\ gamma = Return (Some ((spec_call Phi (S + 0.001) K T sigma r
                                - 2 * spec_call Phi S K T sigma r + 0) / 0.001 ^ 2)))
  /\ (0.001 < S ->
      gamma = Return (Some ((spec_call Phi (S + 0.001) K T sigma r
                             - 2 * spec_call Phi S K T sigma r
                             + spec_call Phi (S - 0.001) K T sigma r) / 0.001 ^ 2)))
  /\ ((exists x, gamma = Return (Some x)) <-> 0.001 <= S).
Proof.
  intros Hv S K T sigma r gamma. pose proof Hv as (HS & HK & HT & Hs).
  fold S K T sigma in HS, HK, HT, Hs.
  assert (Hrun : gamma
                 = Return (np_div_by
                             (np_add (np_sub (Some (spec_call Phi (S + 0.001) K T sigma r))
                                        (np_scale 2 (Some (spec_call Phi S K T sigma r))))
                                (priced Phi CallPricer (S - 0.001) K T sigma r))
                             (0.001 ^ 2))).
  { unfold gamma. rewrite calculate_gamma_run. cbv zeta. fold S K T sigma r.
    destruct (Req_dec_T K 0); [exfalso; lra|]. cbn [result].
    rewrite (priced_valid Phi CallPricer (S + 0.001) K T)
      by (repeat split; lra).
    rewrite (priced_valid Phi CallPricer S K T) by (repeat split; lra).
    reflexivity. }
  assert (Hzero : S = 0.001 -> priced Phi CallPricer (S - 0.001) K T sigma r = Some 0).
  { intros E. rewrite (priced_on_edge Phi CallPricer (S - 0.001) K T sigma r)
      by (try lra; left; lra).
    pose proof (exp_pos (- r * T)) as He.
    assert (HD : 0 < K * exp (- r * T)) by (now apply Rmult_lt_0_compat).
    destruct (Req_dec_T (S - 0.001) (K * exp (- r * T))); [exfalso; lra|].
    f_equal. unfold payoff, Rmax.
    destruct (Rle_dec (S - 0.001 - K * exp (- r * T)) 0); [reflexivity|exfalso; lra]. }
  assert (Hlow : S < 0.001 -> gamma = Return None).
  { intros Hlt. rewrite Hrun, priced_negative_ratio; [reflexivity|].
    unfold Rdiv. assert (0 < / K) by (now apply Rinv_0_lt_compat). nra. }
  assert (Hat : S = 0.001 ->
                gamma = Return (Some ((spec_call Phi (S + 0.001) K T sigma r
                                       - 2 * spec_call Phi S K T sigma r + 0)
                                      / 0.001 ^ 2))).
  { intros E. rewrite Hrun, (Hzero E). cbn [np_scale np_sub np_add nbind].
    now rewrite np_div_by_some by lra. }
  assert (Habove : 0.001 < S ->
                   gamma = Return (Some ((spec_call Phi (S + 0.001) K T sigma r
                                          - 2 * spec_call Phi S K T sigma r
                                          + spec_call Phi (S - 0.001) K T sigma r)
                                         / 0.001 ^ 2))).
  { intros Hgt. exact (calculate_gamma_valid Phi self Hv Hgt). }
  split; [|split; [|split; [|split]]].
  - rewrite calculate_gamma_run. cbv zeta. fold S K T sigma r.
    destruct (Req_dec_T K 0); [exfalso; lra|].
    cbn [calls In]. tauto.
  - exact Hlow.
  - intros E. split; [|exact (Hat E)].
    change (black_scholes_european_call Phi) with (price_with Phi CallPricer).
    rewrite price_with_run. cbv zeta. cbn [result or_default]. fold S K T sigma r.
    unfold pricer_result. destruct (Req_dec_T K 0); [exfalso; lra|].
    now rewrite (Hzero E).
  - exact Habove.
  - split.
    + intros [x Hx]. destruct (Rle_dec 0.001 S); [assumption|].
      rewrite Hlow in Hx by lra. discriminate.
    + intros [Hgt|Heq]; eexists; [exact (Habove Hgt)|exact (Hat (eq_sym Heq))].
Qed.

(** *** Parity of the Greeks *)

Lemma spec_parity (Phi : R -> R) (S K T sigma r : R) :
  (forall x, Phi x + Phi (- x) = 1) ->
  spec_call Phi S K T sigma r - spec_put Phi S K T sigma r = S - K * exp (- r * T).
Proof.
  intros Hsym. unfold spec_call, spec_put.
  pose proof (Hsym (spec_d1 S K T sigma r)) as H1.
  pose proof (Hsym (spec_d2 S K T sigma r)) as H2.
  set (E := exp (- r * T)) in *.
  set (a := Phi (spec_d1 S K T sigma r)) in *.
  set (b := Phi (spec_d2 S K T sigma r)) in *.
  set (a' := Phi (- spec_d1 S K T sigma r)) in *.
  set (b' := Phi (- spec_d2 S K T sigma r)) in *.
  replace a' with (1 - a) by lra. replace b' with (1 - b) by lra. ring.
Qed.

(** On valid inputs, call delta minus put delta is exactly one, for any
    [Phi] with [Phi x + Phi (- x) = 1]. *)
Theorem delta_parity (Phi : R -> R) (self : OptionGreeksToolbox) :
  (forall x, Phi x + Phi (- x) = 1) ->
  valid_inputs (Attrs.S self) (Attrs.K self) (Attrs.T self) (Attrs.sigma self) ->
  exists dc dp,
    result (calculate_delta Phi (Some "call"%string) self) = Return (Some dc)
    /\ result (calculate_delta Phi (Some "put"%string) self) = Return (Some dp)
    /\ dc - dp = 1.
Proof.
  intros Hsym Hv.
  do 2 eexists. split; [|split].
  - exact (calculate_delta_valid Phi self "call" CallPricer eq_refl Hv).
  - exact (calculate_delta_valid Phi self "put" PutPricer eq_refl Hv).
  - cbn [spec_price].
    pose proof (spec_parity Phi (Attrs.S self + 0.001) (Attrs.K self) (Attrs.T self)
                  (Attrs.sigma self) (Attrs.r self) Hsym).
    pose proof (spec_parity Phi (Attrs.S self) (Attrs.K self) (Attrs.T self)
                  (Attrs.sigma self) (Attrs.r self) Hsym).
    lra.
Qed.

(** On valid inputs with more than a day to expiry, call theta minus put
    theta is the one-day difference of the discounted strike, for any
    [Phi] with [Phi x + Phi (- x) = 1]; with a zero rate the two thetas
    are equal. *)
Theorem theta_parity (Phi : R -> R) (self : OptionGreeksToolbox) :
  (forall x, Phi x + Phi (- x) = 1) ->
  valid_inputs (Attrs.S self) (Attrs.K self) (Attrs.T self) (Attrs.sigma self) ->
  1 / 252 < Attrs.T self ->
  exists tc tp,
    result (calculate_theta Phi (Some "call"%string) self) = Return (Some tc)
    /\ result (calculate_theta Phi (Some "put"%string) self) = Return (Some tp)
    /\ tc - tp
       = (Attrs.K self * exp (- Attrs.r self * Attrs.T self)
          - Attrs.K self * exp (- Attrs.r self * (Attrs.T self - 1 / 252)))
         / (1 / 252)
    /\ (Attrs.r self = 0 -> tc = tp).
Proof.
  intros Hsym Hv Hday.
  do 2 eexists. split; [|split].
  - exact (calculate_theta_valid Phi self "call" CallPricer eq_refl Hv Hday).
  - exact (calculate_theta_valid Phi self "put" PutPricer eq_refl Hv Hday).
  - cbn [spec_price].
    pose proof (spec_parity Phi (Attrs.S self) (Attrs.K self) (Attrs.T self - 1 / 252)
                  (Attrs.sigma self) (Attrs.r self) Hsym) as P1.
    pose proof (spec_parity Phi (Attrs.S self) (Attrs.K self) (Attrs.T self)
                  (Attrs.sigma self) (Attrs.r self) Hsym) as P2.
    set (E1 := exp (- Attrs.r self * (Attrs.T self - 1 / 252))) in *.
    set (E2 := exp (- Attrs.r self * Attrs.T self)) in *.
    assert (Hd : (spec_call Phi (Attrs.S self) (Attrs.K self) (Attrs.T self - 1 / 252)
                    (Attrs.sigma self) (Attrs.r self)
                  - spec_call Phi (Attrs.S self) (Attrs.K self) (Attrs.T self)
                      (Attrs.sigma self) (Attrs.r self)) / (1 / 252)
                 - (spec_put Phi (Attrs.S self) (Attrs.K self) (Attrs.T self - 1 / 252)
                      (Attrs.sigma self) (Attrs.r self)
                    - spec_put Phi (Attrs.S self) (Attrs.K self) (Attrs.T self)
                        (Attrs.sigma self) (Attrs.r self)) / (1 / 252)
                 = (Attrs.K self * E2 - Attrs.K self * E1) / (1 / 252)).
    { replace (Attrs.K self * E2 - Attrs.K self * E1)
        with ((spec_call Phi (Attrs.S self) (Attrs.K self) (Attrs.T self - 1 / 252)
                 (Attrs.sigma self) (Attrs.r self)
               - spec_call Phi (Attrs.S self) (Attrs.K self) (Attrs.T self)
                   (Attrs.sigma self) (Attrs.r self))
              - (spec_put Phi (Attrs.S self) (Attrs.K self) (Attrs.T self - 1 / 252)
                   (Attrs.sigma self) (Attrs.r self)
                 - spec_put Phi (Attrs.S self) (Attrs.K self) (Attrs.T self)
                     (Attrs.sigma self) (Attrs.r self))) by lra.
      field. }
    split; [exact Hd|].
    intros Hr. unfold E1, E2 in Hd. rewrite Hr in Hd.
    replace (- 0 * (Attrs.T self - 1 / 252)) with 0 in Hd by ring.
    replace (- 0 * Attrs.T self) with 0 in Hd by ring.
    rewrite exp_0 in Hd.
    replace ((Attrs.K self * 1 - Attrs.K self * 1) / (1 / 252)) with 0 in Hd by field.
    rewrite Hr. lra.
Qed.

(** *** More on the standard normal distribution function *)

Lemma norm_cdf_increasing (x y : R) : x < y -> norm_cdf x < norm_cdf y.
Proof.
  intros Hxy.
  destruct (MVT_cor2 norm_cdf (fun x => / sqrt (2 * PI) * exp (- x ^ 2 / 2)) x y Hxy
              (fun c _ => norm_cdf_density c)) as (c & Hc & _).
  pose proof PI_RGT_0.
  assert (0 < / sqrt (2 * PI)) by (apply Rinv_0_lt_compat, sqrt_lt_R0; lra).
  pose proof (exp_pos (- c ^ 2 / 2)).
  assert (0 < / sqrt (2 * PI) * exp (- c ^ 2 / 2) * (y - x))
    by (repeat apply Rmult_lt_0_compat; lra).
  lra.
Qed.

Lemma norm_cdf_pos (x : R) : 0 < norm_cdf x.
Proof.
  pose proof (norm_cdf_nonneg (x - 1)).
  pose proof (norm_cdf_increasing (x - 1) x ltac:(lra)). lra.
Qed.

Lemma norm_cdf_lt_1 (x : R) : norm_cdf x < 1.
Proof.
  pose proof (norm_cdf_sym x). pose proof (norm_cdf_pos (- x)). lra.
Qed.

(** *** One derivative for the three directions *)


Section Directions.

Variable Phi : R -> R.
Variable c_phi : R.
Hypothesis Phi_density :
  forall x, derivable_pt_lim Phi x (c_phi * exp (- x ^ 2 / 2)).



End Directions.

(** *** Signs and sizes of the Greeks *)



(** On valid inputs the call delta lies strictly between 0 and 1 and the
    put delta strictly between -1 and 0. *)
Theorem delta_bounds (self : OptionGreeksToolbox) :
  valid_inputs (Attrs.S self) (Attrs.K self) (Attrs.T self) (Attrs.sigma self) ->
  exists dc dp,
    result (calculate_delta norm_cdf (Some "call"%string) self) = Return (Some dc)
    /\ 0 < dc < 1
    /\ result (calculate_delta norm_cdf (Some "put"%string) self) = Return (Some dp)
    /\ - 1 < dp < 0.
Proof.
  intros Hv. pose proof Hv as (HS & HK & HT & Hs).
  do 2 eexists. split; [|split; [|split]].
  - exact (calculate_delta_valid norm_cdf self "call" CallPricer eq_refl Hv).
  - cbn [spec_price].
    assert (Hlt : Attrs.S self < Attrs.S self + 0.001) by lra.
    destruct (MVT_cor2
                (fun S => spec_call norm_cdf S (Attrs.K self) (Attrs.T self)
                            (Attrs.sigma self) (Attrs.r self))
                (fun S => norm_cdf (spec_d1 S (Attrs.K self) (Attrs.T self)
                                      (Attrs.sigma self) (Attrs.r self)))
                _ _ Hlt) as (c & Hc & Hin).
    { intros c Hc. apply (spec_call_deriv norm_cdf _ norm_cdf_density); lra. }
    rewrite Hc.
    pose proof (norm_cdf_pos (spec_d1 c (Attrs.K self) (Attrs.T self)
                                (Attrs.sigma self) (Attrs.r self))).
    pose proof (norm_cdf_lt_1 (spec_d1 c (Attrs.K self) (Attrs.T self)
                                 (Attrs.sigma self) (Attrs.r self))).
    match goal with
    | |- _ < ?x * ?d / _ < _ => replace (x * d / 0.001) with x by (field; lra)
    end.
    lra.
  - exact (calculate_delta_valid norm_cdf self "put" PutPricer eq_refl Hv).
  - cbn [spec_price].
    assert (Hlt : Attrs.S self < Attrs.S self + 0.001) by lra.
    destruct (MVT_cor2
                (fun S => spec_put norm_cdf S (Attrs.K self) (Attrs.T self)
                            (Attrs.sigma self) (Attrs.r self))
                (fun S => - norm_cdf (- spec_d1 S (Attrs.K self) (Attrs.T self)
                                        (Attrs.sigma self) (Attrs.r self)))
                _ _ Hlt) as (c & Hc & Hin).
    { intros c Hc. apply (spec_put_deriv norm_cdf _ norm_cdf_density); lra. }
    rewrite Hc.
    pose proof (norm_cdf_pos (- spec_d1 c (Attrs.K self) (Attrs.T self)
                                  (Attrs.sigma self) (Attrs.r self))).
    pose proof (norm_cdf_lt_1 (- spec_d1 c (Attrs.K self) (Attrs.T self)
                                   (Attrs.sigma self) (Attrs.r self))).
    match goal with
    | |- _ < ?x * ?d / _ < _ => replace (x * d / 0.001) with x by (field; lra)
    end.
    lra.
Qed.




(** *** The tail of the standard normal distribution function *)





(** *** Price bounds *)





(** The put formula is the call formula with the roles of spot and
    discounted strike exchanged, at a zero rate. *)
Lemma spec_put_as_call (Phi : R -> R) (S K T sigma r : R) :
  valid_inputs S K T sigma ->
  spec_put Phi S K T sigma r = spec_call Phi (K * exp (- r * T)) S T sigma 0.
Proof.
  intros (HS & HK & HT & Hs).
  pose proof (vol_sqrt_pos T sigma HT Hs) as Hv.
  pose proof (sqrt_lt_R0 T HT) as Hr.
  assert (Hvv : (sigma * sqrt T) * (sigma * sqrt T) = sigma ^ 2 * T).
  { transitivity (sigma ^ 2 * (sqrt T * sqrt T)); [ring|].
    now rewrite sqrt_sqrt by lra. }
  assert (Hln : ln (K * exp (- r * T) / S) = - ln (S / K) - r * T).
  { replace (K * exp (- r * T) / S) with (/ (S / K) * exp (- r * T)) by (field; lra).
    assert (0 < S / K) by (now apply Rdiv_lt_0_compat).
    rewrite ln_mult by (try apply exp_pos; now apply Rinv_0_lt_compat).
    rewrite ln_Rinv, ln_exp by assumption. ring. }
  assert (E1 : spec_d1 (K * exp (- r * T)) S T sigma 0 = - spec_d2 S K T sigma r).
  { unfold spec_d2, spec_d1. rewrite Hln.
    apply Rmult_eq_reg_r with (sigma * sqrt T); [|lra].
    transitivity (- ln (S / K) - r * T + (0 + 0.5 * sigma ^ 2) * T); [field; lra|].
    transitivity (- (ln (S / K) + (r + 0.5 * sigma ^ 2) * T)
                  + (sigma * sqrt T) * (sigma * sqrt T)); [rewrite Hvv; lra|].
    field. lra. }
  unfold spec_put, spec_call.
  assert (E2 : spec_d2 (K * exp (- r * T)) S T sigma 0 = - spec_d1 S K T sigma r).
  { unfold spec_d2 at 1. rewrite E1. unfold spec_d2. ring. }
  rewrite E1, E2.
  replace (- 0 * T) with 0 by ring. rewrite exp_0. ring.
Qed.


(** *** The function handed to the root finder *)

Lemma implied_volatility_func_run (Phi : R -> R) (market_price : R)
  (kind : string) (p : pricer) (x : R) (self : OptionGreeksToolbox) :
  pricer_of_kind kind = Some p ->
  implied_volatility_func Phi market_price kind x self
  = Ran (outcome_map (fun a => PyFloat (np_sub a (Some market_price)))
           (pricer_result Phi p (Attrs.S self) (Attrs.K self) (Attrs.T self) x
              (Attrs.r self)))
        self [Invoke p (Attrs.S self) (Attrs.T self) x].
Proof.
  intros H. apply pricer_of_kind_inv in H. destruct H as [[-> ->]|[-> ->]].
  all: unfold implied_volatility_func; cbn [String.eqb Ascii.eqb Bool.eqb].
  - change (black_scholes_european_call Phi) with (price_with Phi CallPricer).
    rewrite bind_price. cbv zeta. cbn [or_default].
    destruct (pricer_result Phi CallPricer _ _ _ _ _); reflexivity.
  - change (black_scholes_european_put Phi) with (price_with Phi PutPricer).
    rewrite bind_price. cbv zeta. cbn [or_default].
    destruct (pricer_result Phi PutPricer _ _ _ _ _); reflexivity.
Qed.



(** *** What the implied volatility depends on *)

Lemma bind_result_rel {A B : Type} (m1 m2 : M A) (k1 k2 : A -> M B)
  (s1 s2 : OptionGreeksToolbox) :
  result (m1 s1) = result (m2 s2) ->
  self_after (m1 s1) = s1 -> self_after (m2 s2) = s2 ->
  (forall a, result (k1 a s1) = result (k2 a s2)) ->
  result (bind m1 k1 s1) = result (bind m2 k2 s2).
Proof.
  intros Hr H1 H2 Hk. unfold bind.
  destruct (m1 s1) as [o1 t1 tr1], (m2 s2) as [o2 t2 tr2].
  cbn in Hr, H1, H2. subst o2 t1 t2.
  destruct o1 as [a|e]; [|reflexivity].
  specialize (Hk a). destruct (k1 a s1), (k2 a s2). exact Hk.
Qed.

Lemma secant_loop_rel (f g : R -> M pyval) (s1 s2 : OptionGreeksToolbox) :
  (forall x, result (f x s1) = result (g x s2)
             /\ self_after (f x s1) = s1 /\ self_after (g x s2) = s2) ->
  forall maxiter p0 q0 p1 q1,
    result (secant_loop maxiter f p0 q0 p1 q1 s1)
    = result (secant_loop maxiter g p0 q0 p1 q1 s2).
Proof.
  intros H. induction maxiter as [|n IH]; intros p0 q0 p1 q1; cbn [secant_loop].
  - reflexivity.
  - destruct (Req_dec_T q1 q0); [destruct (Req_dec_T p1 p0); reflexivity|].
    cbv zeta.
    match goal with |- context [Rle_dec ?a ?b] => destruct (Rle_dec a b) end;
      [reflexivity|].
    apply bind_result_rel; try apply H. intros v.
    apply bind_result_rel; try apply py_abs_arg_frame.
    + destruct v as [[?|]|]; reflexivity.
    + intros q. apply IH.
Qed.

Lemma secant_newton_rel (f g : R -> M pyval) (x0 : R) (s1 s2 : OptionGreeksToolbox) :
  (forall x, result (f x s1) = result (g x s2)
             /\ self_after (f x s1) = s1 /\ self_after (g x s2) = s2) ->
  result (secant_newton f x0 s1) = result (secant_newton g x0 s2).
Proof.
  intros H. unfold secant_newton. cbv zeta.
  apply bind_result_rel; try apply H. intros v0.
  apply bind_result_rel; try apply H. intros v1.
  apply bind_result_rel; try apply py_abs_arg_frame;
    [destruct v1 as [[?|]|]; reflexivity|]. intros q1.
  apply bind_result_rel; try apply py_abs_arg_frame;
    [destruct v0 as [[?|]|]; reflexivity|]. intros q0.
  destruct (Rlt_dec (Rabs q1) (Rabs q0)); now apply secant_loop_rel.
Qed.

(** Parity holds for whatever a pricer returns, the edge values and
    [nan] included. *)
Lemma norm_cdf_at_neg (Phi : R -> R) (a : float64) :
  (forall x, Phi x + Phi (- x) = 1) ->
  norm_cdf_at Phi (np_neg a) = (v <-- norm_cdf_at Phi a ;; Some (1 - v)).
Proof.
  intros Hsym. pose proof (Hsym 0) as H0. rewrite Ropp_0 in H0.
  destruct a as [x| | | |]; cbn; try reflexivity; try (f_equal; lra).
  destruct (Req_dec_T x 0) as [->|_]; cbn; f_equal.
  - lra.
  - pose proof (Hsym x). lra.
Qed.

Lemma priced_parity (Phi : R -> R) (S K T sigma r : R) :
  (forall x, Phi x + Phi (- x) = 1) ->
  priced Phi PutPricer S K T sigma r
  = (c <-- priced Phi CallPricer S K T sigma r ;;
     Some (c - S + K * exp (- r * T))).
Proof.
  intros Hsym. unfold priced. rewrite !norm_cdf_at_neg by assumption.
  destruct (norm_cdf_at Phi (np_d1 S K T sigma r));
    destruct (norm_cdf_at Phi (np_d2 S K T sigma r)); cbn; try reflexivity.
  f_equal. ring.
Qed.

Section RootFinder.

Variable Phi : R -> R.
Variable newton : (R -> M pyval) -> R -> M npfloat.

(** The root finder's result is decided by the values of the function it
    is given. *)
Hypothesis newton_by_values :
  forall (f g : R -> M pyval) (x0 : R) (s1 s2 : OptionGreeksToolbox),
    (forall x, result (f x s1) = result (g x s2)
               /\ self_after (f x s1) = s1 /\ self_after (g x s2) = s2) ->
    result (newton f x0 s1) = result (newton g x0 s2).

(** The implied volatility does not depend on the volatility stored in the
    object. *)
Theorem implied_volatility_ignores_stored_volatility
  (S K T r sigma1 sigma2 market_price : R) (kind : option string) :
  result (calculate_implied_volatility Phi newton market_price kind
            (__init__ S K T sigma1 r))
  = result (calculate_implied_volatility Phi newton market_price kind
              (__init__ S K T sigma2 r)).
Proof.
  unfold calculate_implied_volatility. cbv zeta.
  apply newton_by_values. intros x.
  split; [|split; apply implied_volatility_func_frame].
  destruct (pricer_of_kind (kind_or_call kind)) as [p|] eqn:Hk.
  - now rewrite !(implied_volatility_func_run Phi market_price _ p x _ Hk).
  - unfold implied_volatility_func. unfold pricer_of_kind in Hk.
    destruct (kind_or_call kind =? "call")%string; [discriminate|].
    destruct (kind_or_call kind =? "put")%string; [discriminate|reflexivity].
Qed.

(** With spot, strike and maturity positive, the implied volatility of a
    put at the price [m - S + K * exp (- r * T)] is the implied volatility
    of a call at the price [m], for any [Phi] with
    [Phi x + Phi (- x) = 1]. *)
Theorem implied_volatility_respects_parity
  (self : OptionGreeksToolbox) (market_price : R) :
  (forall x, Phi x + Phi (- x) = 1) ->
  0 < Attrs.S self -> 0 < Attrs.K self -> 0 < Attrs.T self ->
  result (calculate_implied_volatility Phi newton
            (market_price - Attrs.S self
             + Attrs.K self * exp (- Attrs.r self * Attrs.T self))
            (Some "put"%string) self)
  = result (calculate_implied_volatility Phi newton market_price
              (Some "call"%string) self).
Proof.
  intros Hsym HS HK HT.
  unfold calculate_implied_volatility. cbv zeta. cbn [kind_or_call].
  apply newton_by_values. intros x.
  split; [|split; apply implied_volatility_func_frame].
  rewrite (implied_volatility_func_run Phi _ "put" PutPricer x self eq_refl),
    (implied_volatility_func_run Phi _ "call" CallPricer x self eq_refl).
  cbn [result]. unfold pricer_result.
  destruct (Req_dec_T (Attrs.K self) 0); [exfalso; lra|].
  cbn [outcome_map]. do 2 f_equal.
  rewrite (priced_parity Phi (Attrs.S self) (Attrs.K self) (Attrs.T self) x
             (Attrs.r self) Hsym).
  destruct (priced Phi CallPricer _ _ _ _ _); cbn [np_sub nbind]; [|reflexivity].
  f_equal. lra.
Qed.

End RootFinder.

(** *** Gamma and vega of the put *)

(** Gamma and vega are computed on the call pricer, and on valid inputs
    the put pricer has the same ones: the same second difference in the
    spot and the same difference in the volatility, for any [Phi] with
    [Phi x + Phi (- x) = 1]. *)
Theorem gamma_vega_hold_for_put (Phi : R -> R) (self : OptionGreeksToolbox) :
  (forall x, Phi x + Phi (- x) = 1) ->
  valid_inputs (Attrs.S self) (Attrs.K self) (Attrs.T self) (Attrs.sigma self) ->
  0.001 < Attrs.S self ->
  exists up mid down bumped,
    result (black_scholes_european_put Phi (Some (Attrs.S self + 0.001)) None None self)
    = Return (Some up)
    /\ result (black_scholes_european_put Phi (Some (Attrs.S self)) None None self)
       = Return (Some mid)
    /\ result (black_scholes_european_put Phi (Some (Attrs.S self - 0.001)) None None self)
       = Return (Some down)
    /\ result (black_scholes_european_put Phi None None
                 (Some (Attrs.sigma self + 0.001)) self)
       = Return (Some bumped)
    /\ result (calculate_gamma Phi self)
       = Return (Some ((up - 2 * mid + down) / 0.001 ^ 2))
    /\ result (calculate_vega Phi self) = Return (Some ((bumped - mid) / 0.001)).
Proof.
  intros Hsym Hv Heps. pose proof Hv as (HS & HK & HT & Hs).
  do 4 eexists.
  change (black_scholes_european_put Phi) with (price_with Phi PutPricer).
  rewrite !price_with_run. cbv zeta. cbn [result or_default].
  rewrite !pricer_result_valid by (repeat split; lra). cbn [spec_price].
  rewrite (calculate_gamma_valid Phi self Hv Heps), (calculate_vega_valid Phi self Hv).
  repeat split; try reflexivity; do 2 f_equal.
  - pose proof (spec_parity Phi (Attrs.S self + 0.001) (Attrs.K self) (Attrs.T self)
                  (Attrs.sigma self) (Attrs.r self) Hsym).
    pose proof (spec_parity Phi (Attrs.S self) (Attrs.K self) (Attrs.T self)
                  (Attrs.sigma self) (Attrs.r self) Hsym).
    pose proof (spec_parity Phi (Attrs.S self - 0.001) (Attrs.K self) (Attrs.T self)
                  (Attrs.sigma self) (Attrs.r self) Hsym).
    f_equal. lra.
  - pose proof (spec_parity Phi (Attrs.S self) (Attrs.K self) (Attrs.T self)
                  (Attrs.sigma self + 0.001) (Attrs.r self) Hsym).
    pose proof (spec_parity Phi (Attrs.S self) (Attrs.K self) (Attrs.T self)
                  (Attrs.sigma self) (Attrs.r self) Hsym).
    f_equal. lra.
Qed.

(** *** The put as a call *)

(** On valid inputs the put price of a contract is the call price of the
    contract whose spot is the discounted strike, whose strike is the spot
    and whose rate is zero. *)
Theorem put_is_call_of_mirrored_contract (Phi : R -> R) (S K T sigma r : R) :
  valid_inputs S K T sigma ->
  result (black_scholes_european_put Phi None None None (__init__ S K T sigma r))
  = result (black_scholes_european_call Phi None None None
              (__init__ (K * exp (- r * T)) S T sigma 0)).
Proof.
  intros Hv. pose proof Hv as (HS & HK & HT & Hs).
  change (black_scholes_european_put Phi) with (price_with Phi PutPricer).
  change (black_scholes_european_call Phi) with (price_with Phi CallPricer).
  rewrite !price_with_run. cbv zeta.
  cbn [result or_default __init__ Attrs.S Attrs.K Attrs.T Attrs.sigma Attrs.r].
  rewrite !pricer_result_valid.
  - cbn [spec_price]. now rewrite spec_put_as_call.
  - repeat split; try assumption. apply Rmult_lt_0_compat; [lra|apply exp_pos].
  - assumption.
Qed.

(** ** The further properties at example contracts *)

Lemma example_valid :
  valid_inputs (Attrs.S example_toolbox) (Attrs.K example_toolbox)
    (Attrs.T example_toolbox) (Attrs.sigma example_toolbox).
Proof. unfold valid_inputs. cbn. lra. Qed.


Lemma negative_volatility_swaps_pricers_witness :
  exists c p,
    result (black_scholes_european_call norm_cdf None None (Some 0.2) example_toolbox)
    = Return (Some c)
    /\ result (black_scholes_european_put norm_cdf None None (Some 0.2) example_toolbox)
       = Return (Some p)
    /\ result (black_scholes_european_call norm_cdf None None (Some (- (0.2)))
                 example_toolbox) = Return (Some (- p))
    /\ result (black_scholes_european_put norm_cdf None None (Some (- (0.2)))
                 example_toolbox) = Return (Some (- c)).
Proof.
  apply (negative_volatility_swaps_pricers norm_cdf example_toolbox 0.2); cbn; lra.
Defined.

Lemma price_scales_with_spot_and_strike_witness :
  result (price_with norm_cdf CallPricer None None None (__init__ (2 * 100) (2 * 100) 1 0.2 0.05))
  = outcome_map (np_scale 2)
      (result (price_with norm_cdf CallPricer None None None (__init__ 100 100 1 0.2 0.05))).
Proof.
  apply (price_scales_with_spot_and_strike norm_cdf CallPricer 100 100 1 0.2 0.05 2). lra.
Defined.

Lemma zero_strike_raises_witness :
  result (calculate_gamma norm_cdf zero_strike_toolbox) = Raise ZeroDivisionError
  /\ result (calculate_delta norm_cdf (Some "put"%string) zero_strike_toolbox)
     = Raise ZeroDivisionError.
Proof.
  pose proof (zero_strike_raises norm_cdf zero_strike_toolbox "put" PutPricer
                eq_refl eq_refl) as (_ & Hd & Hg & _).
  exact (conj (proj1 Hg) (proj1 Hd)).
Defined.

Lemma unknown_kind_rejected_witness :
  calculate_delta norm_cdf (Some "straddle"%string) zero_strike_toolbox
  = Ran (Raise invalid_option_type) zero_strike_toolbox [].
Proof.
  exact (proj1 (proj2 (unknown_kind_rejected norm_cdf zero_strike_toolbox "straddle"
                         eq_refl))).
Defined.

Lemma gamma_needs_spot_at_least_step_witness :
  result (calculate_gamma norm_cdf penny_toolbox) = Return None
  /\ result (black_scholes_european_call norm_cdf
               (Some (Attrs.S step_toolbox - 0.001)) None None step_toolbox)
     = Return (Some 0)
  /\ exists x, result (calculate_gamma norm_cdf step_toolbox) = Return (Some x).
Proof.
  assert (Hp : valid_inputs (Attrs.S penny_toolbox) (Attrs.K penny_toolbox)
                 (Attrs.T penny_toolbox) (Attrs.sigma penny_toolbox))
    by (unfold valid_inputs; cbn; lra).
  assert (Hs : valid_inputs (Attrs.S step_toolbox) (Attrs.K step_toolbox)
                 (Attrs.T step_toolbox) (Attrs.sigma step_toolbox))
    by (unfold valid_inputs; cbn; lra).
  pose proof (gamma_needs_spot_at_least_step norm_cdf penny_toolbox Hp) as Hlow.
  pose proof (gamma_needs_spot_at_least_step norm_cdf step_toolbox Hs) as Hat.
  cbv zeta in Hlow, Hat.
  destruct Hlow as (_ & Hlow & _). destruct Hat as (_ & _ & Hat & _).
  split; [apply Hlow; cbn; lra|].
  destruct (Hat eq_refl) as [Hcall Hgamma].
  split; [exact Hcall|]. eexists. exact Hgamma.
Defined.

Lemma delta_parity_witness :
  exists dc dp,
    result (calculate_delta norm_cdf (Some "call"%string) example_toolbox)
    = Return (Some dc)
    /\ result (calculate_delta norm_cdf (Some "put"%string) example_toolbox)
       = Return (Some dp)
    /\ dc - dp = 1.
Proof.
  exact (delta_parity norm_cdf example_toolbox norm_cdf_sym example_valid).
Defined.

Lemma theta_parity_witness :
  exists tc tp,
    result (calculate_theta norm_cdf (Some "call"%string) example_toolbox)
    = Return (Some tc)
    /\ result (calculate_theta norm_cdf (Some "put"%string) example_toolbox)
       = Return (Some tp)
    /\ tc - tp
       = (Attrs.K example_toolbox
          * exp (- Attrs.r example_toolbox * Attrs.T example_toolbox)
          - Attrs.K example_toolbox
            * exp (- Attrs.r example_toolbox * (Attrs.T example_toolbox - 1 / 252)))
         / (1 / 252)
    /\ (Attrs.r example_toolbox = 0 -> tc = tp).
Proof.
  apply (theta_parity norm_cdf example_toolbox norm_cdf_sym example_valid).
  cbn. lra.
Defined.

Lemma delta_bounds_witness :
  exists dc dp,
    result (calculate_delta norm_cdf (Some "call"%string) example_toolbox)
    = Return (Some dc)
    /\ 0 < dc < 1
    /\ result (calculate_delta norm_cdf (Some "put"%string) example_toolbox)
       = Return (Some dp)
    /\ - 1 < dp < 0.
Proof.
  exact (delta_bounds example_toolbox example_valid).
Defined.






Lemma implied_volatility_ignores_stored_volatility_witness :
  result (calculate_implied_volatility norm_cdf secant_newton 10 (Some "call"%string)
            (__init__ 100 100 1 0.2 0.05))
  = result (calculate_implied_volatility norm_cdf secant_newton 10 (Some "call"%string)
              (__init__ 100 100 1 0.9 0.05)).
Proof.
  exact (implied_volatility_ignores_stored_volatility norm_cdf secant_newton
           secant_newton_rel 100 100 1 0.05 0.2 0.9 10 (Some "call"%string)).
Defined.

Lemma implied_volatility_respects_parity_witness :
  result (calculate_implied_volatility norm_cdf secant_newton
            (10 - Attrs.S example_toolbox
             + Attrs.K example_toolbox
               * exp (- Attrs.r example_toolbox * Attrs.T example_toolbox))
            (Some "put"%string) example_toolbox)
  = result (calculate_implied_volatility norm_cdf secant_newton 10
              (Some "call"%string) example_toolbox).
Proof.
  apply (implied_volatility_respects_parity norm_cdf secant_newton secant_newton_rel
           example_toolbox 10 norm_cdf_sym); cbn; lra.
Defined.

Lemma gamma_vega_hold_for_put_witness :
  exists up mid down bumped,
    result (black_scholes_european_put norm_cdf
              (Some (Attrs.S example_toolbox + 0.001)) None None example_toolbox)
    = Return (Some up)
    /\ result (black_scholes_european_put norm_cdf
                 (Some (Attrs.S example_toolbox)) None None example_toolbox)
       = Return (Some mid)
    /\ result (black_scholes_european_put norm_cdf
                 (Some (Attrs.S example_toolbox - 0.001)) None None example_toolbox)
       = Return (Some down)
    /\ result (black_scholes_european_put norm_cdf None None
                 (Some (Attrs.sigma example_toolbox + 0.001)) example_toolbox)
       = Return (Some bumped)
    /\ result (calculate_gamma norm_cdf example_toolbox)
       = Return (Some ((up - 2 * mid + down) / 0.001 ^ 2))
    /\ result (calculate_vega norm_cdf example_toolbox)
       = Return (Some ((bumped - mid) / 0.001)).
Proof.
  apply (gamma_vega_hold_for_put norm_cdf example_toolbox norm_cdf_sym example_valid).
  cbn. lra.
Defined.

Lemma put_is_call_of_mirrored_contract_witness :
  result (black_scholes_european_put norm_cdf None None None
            (__init__ 100 100 1 0.2 0.05))
  = result (black_scholes_european_call norm_cdf None None None
              (__init__ (100 * exp (- (0.05) * 1)) 100 1 0.2 0)).
Proof.
  apply (put_is_call_of_mirrored_contract norm_cdf 100 100 1 0.2 0.05).
  unfold valid_inputs. lra.
Defined.
